(** * hidencloud notifier: a shallow embedding of [notifier.py]

    The development follows the source file top to bottom:

    - [PyStr]: the [str] methods the program calls ([strip], [upper], [in],
      [replace], [join]);
    - [Re]: the part of Python's [re] module the program reaches: [re.escape],
      the pattern syntax, the flags [IGNORECASE] and [DOTALL], and
      [re.search] used as a yes/no test;
    - [Notifier]: [matches], [build_region_regex], [region_is_available],
      [format_region_message] and the poll loop of [main], with the
      collaborators (HTTP fetch, clock, external command, Telegram call) given
      as a script of answers and the side effects recorded as a trace.

    Characters are 8-bit [ascii] values and Python's [str] is [list ascii].
    The character functions follow Python on the 7-bit ASCII range, which is
    the range the region codes, the marker texts and the examples live in;
    code points from 128 on are treated as caseless, non-word and non-space
    characters. *)

From Stdlib Require Import Ascii String List Bool Arith Lia ZArith NArith.
Import ListNotations.

Set Implicit Arguments.

(** ** Python strings *)

Module PyStr.

Definition str := list ascii.

(** Literals are written with Rocq's string notation. *)
Definition s (lit : string) : str := list_ascii_of_string lit.

Definition LF : ascii := "010"%char.

Definition code (c : ascii) : N := N_of_ascii c.

Definition in_range (lo hi : N) (c : ascii) : bool :=
  (lo <=? code c)%N && (code c <=? hi)%N.

Definition is_upper (c : ascii) : bool := in_range 65 90 c.
Definition is_lower (c : ascii) : bool := in_range 97 122 c.
Definition is_digit (c : ascii) : bool := in_range 48 57 c.
Definition is_alnum (c : ascii) : bool := is_upper c || is_lower c || is_digit c.

(** [\w] of the [re] module. *)
Definition is_word (c : ascii) : bool := is_alnum c || Ascii.eqb c "_".

(** [str.isspace] on one character: TAB..CR, FS..US and the blank. *)
Definition is_space (c : ascii) : bool := in_range 9 13 c || in_range 28 32 c.

Definition to_upper (c : ascii) : ascii :=
  if is_lower c then ascii_of_N (code c - 32) else c.

Definition to_lower (c : ascii) : ascii :=
  if is_upper c then ascii_of_N (code c + 32) else c.

(** [s.upper()] *)
Definition upper (x : str) : str := map to_upper x.

(** [s.lstrip()], [s.rstrip()], [s.strip()] *)
Fixpoint lstrip (x : str) : str :=
  match x with
  | c :: x' => if is_space c then lstrip x' else x
  | [] => []
  end.

Definition rstrip (x : str) : str := rev (lstrip (rev x)).

Definition strip (x : str) : str := rstrip (lstrip x).

(** Truth value of a string: [bool(s)]. *)
Definition truthy (x : str) : bool :=
  match x with [] => false | _ :: _ => true end.

Definition str_eqb (x y : str) : bool :=
  if list_eq_dec ascii_dec x y then true else false.

(** [s.startswith(p)] *)
Fixpoint starts_with (p x : str) : bool :=
  match p, x with
  | [], _ => true
  | c :: p', d :: x' => Ascii.eqb c d && starts_with p' x'
  | _ :: _, [] => false
  end.

(** [p in s] *)
Fixpoint contains (p x : str) : bool :=
  starts_with p x ||
  match x with
  | [] => false
  | _ :: x' => contains p x'
  end.

(** [sep.join(xs)] *)
Fixpoint join (sep : str) (xs : list str) : str :=
  match xs with
  | [] => []
  | [x] => x
  | x :: xs' => x ++ sep ++ join sep xs'
  end.

(** [s.replace(old, new)]: the occurrences of [old] are replaced from left
    to right and do not overlap.  [skip] counts the characters of an
    occurrence that are still to be dropped. *)
Fixpoint replace_from (old new : str) (skip : nat) (x : str) : str :=
  match x with
  | [] => []
  | c :: x' =>
    match skip with
    | S k => replace_from old new k x'
    | O =>
      if starts_with old x
      then new ++ replace_from old new (length old - 1) x'
      else c :: replace_from old new 0 x'
    end
  end.

Definition replace (old new x : str) : str :=
  match old with
  | [] => new ++ flat_map (fun c => c :: new) x
  | _ :: _ => replace_from old new 0 x
  end.

End PyStr.

Import PyStr.

(** ** Exceptions and results *)

Inductive exn : Type :=
| ReError          (* re.error: the pattern does not compile *)
| ValueError       (* load_headers, time.sleep with a negative length *)
| OSError          (* the command could not be started *)
| URLError         (* the messaging call failed in transport *)
| SystemExit (code : Z).

Inductive result (A : Type) : Type :=
| Ok (a : A)
| Raise (e : exn).

Arguments Ok {A} a.
Arguments Raise {A} e.

Definition bind {A B : Type} (m : result A) (k : A -> result B) : result B :=
  match m with
  | Ok a => k a
  | Raise e => Raise e
  end.

Notation "x <- m ;; k" := (bind m (fun x => k))
  (at level 61, m at next level, right associativity).
Notation "' p <- m ;; k" := (bind m (fun p => k))
  (at level 61, p pattern, m at next level, right associativity).

(** ** The [re] module

    Only what the program reaches is modelled.  [re.search] is used by the
    program as a test (its result is compared with [None] or taken as a truth
    value), so a pattern is given the set of positions where a match that
    starts at a given position can end; greedy and lazy repetition have the
    same set.

    The patterns the program builds itself use word boundaries, escaped
    literals, a group with alternatives and a lazy [.*]; the patterns given
    with [--regex] are the user's.  The syntax modelled is: literals,
    backslash escapes of characters that are not letters or digits, the
    escapes [\b \A \Z \d \D \s \S \w \W \n \t \r \f \v \a],
    the dot, [^] and [$], groups (capturing or [(?:...)]), alternatives, and
    the repetitions [*], [+], [?] with their lazy forms.  [compile] refuses
    every other pattern, those that [re] rejects as well as those it would
    accept (sets, counted repetitions, back references, inline flags, look
    around, [\B]); what is proved about the user's patterns is proved for the
    patterns [compile] accepts. *)

Module Re.

Record flags : Type := { IGNORECASE : bool; DOTALL : bool }.

Definition no_flags : flags := {| IGNORECASE := false; DOTALL := false |}.
Definition ignorecase_dotall : flags := {| IGNORECASE := true; DOTALL := true |}.
Definition ignorecase : flags := {| IGNORECASE := true; DOTALL := false |}.

(** Zero-width assertions (the [AT] codes of the pattern compiler). *)
Inductive anchor : Type :=
| AtBeginning        (* ^  *)
| AtEnd              (* $  *)
| AtBeginningString  (* \A *)
| AtEndString        (* \Z *)
| AtBoundary.        (* \b *)

(** One-character categories. *)
Inductive category : Type :=
| CatDigit | CatNotDigit | CatSpace | CatNotSpace | CatWord | CatNotWord.

Inductive quant : Type := QStar | QPlus | QOpt.

Inductive regex : Type :=
| Empty
| Lit (c : ascii)
| AnyChar
| Cat (k : category)
| At (a : anchor)
| Seq (r1 r2 : regex)
| Alt (r1 r2 : regex)
| Repeat (q : quant) (greedy : bool) (r : regex).

(** *** [re.escape] *)

(** The characters of [_special_chars_map] (Python 3.7 and later: only
    these are escaped). *)
Definition special_chars : str := s "()[]{}?*+-|^$\.&~# " ++
  ["009"; "010"; "013"; "011"; "012"]%char.

Definition is_special (c : ascii) : bool := existsb (Ascii.eqb c) special_chars.

Definition escape_char (c : ascii) : str :=
  if is_special c then ["\"%char; c] else [c].

Definition escape (pattern : str) : str := flat_map escape_char pattern.

(** *** Matching *)

Definition char_at (text : str) (i : nat) : option ascii := nth_error text i.

Definition word_at (text : str) (i : nat) : bool :=
  match char_at text i with
  | Some c => is_word c
  | None => false
  end.

Definition word_before (text : str) (i : nat) : bool :=
  match i with
  | O => false
  | S k => word_at text k
  end.

(** [\b]: exactly one of the two neighbours is a word character. *)
Definition boundary (text : str) (i : nat) : bool :=
  xorb (word_before text i) (word_at text i).

Definition holds (a : anchor) (text : str) (i : nat) : bool :=
  match a with
  | AtBeginning | AtBeginningString => i =? 0
  | AtEndString => i =? length text
  | AtEnd =>
    (i =? length text) ||
    ((S i =? length text) &&
     match char_at text i with Some c => Ascii.eqb c LF | None => false end)
  | AtBoundary => boundary text i
  end.

Definition in_category (k : category) (c : ascii) : bool :=
  match k with
  | CatDigit => is_digit c
  | CatNotDigit => negb (is_digit c)
  | CatSpace => is_space c
  | CatNotSpace => negb (is_space c)
  | CatWord => is_word c
  | CatNotWord => negb (is_word c)
  end.

(** A literal of the pattern against a character of the text. *)
Definition lit_eqb (fl : flags) (c d : ascii) : bool :=
  if IGNORECASE fl then Ascii.eqb (to_lower c) (to_lower d) else Ascii.eqb c d.

Definition one_char (text : str) (i : nat) (ok : ascii -> bool) : list nat :=
  match char_at text i with
  | Some d => if ok d then [S i] else []
  | None => []
  end.

(** Zero or more rounds of [f], each round moving strictly forward (a round
    that matches the empty string adds no position). *)
Fixpoint iterate (f : nat -> list nat) (fuel : nat) (i : nat) : list nat :=
  i :: match fuel with
       | O => []
       | S k => flat_map (iterate f k) (filter (fun j => i <? j) (f i))
       end.

(** [ends fl text r i]: the positions [j] such that [r] matches
    [text[i:j]] in the context of [text]. *)
Fixpoint ends (fl : flags) (text : str) (r : regex) (i : nat) : list nat :=
  match r with
  | Empty => [i]
  | Lit c => one_char text i (lit_eqb fl c)
  | AnyChar => one_char text i (fun d => DOTALL fl || negb (Ascii.eqb d LF))
  | Cat k => one_char text i (in_category k)
  | At a => if holds a text i then [i] else []
  | Seq r1 r2 => flat_map (ends fl text r2) (ends fl text r1 i)
  | Alt r1 r2 => ends fl text r1 i ++ ends fl text r2 i
  | Repeat QStar _ r1 => iterate (ends fl text r1) (length text) i
  | Repeat QPlus _ r1 =>
    flat_map (iterate (ends fl text r1) (length text)) (ends fl text r1 i)
  | Repeat QOpt _ r1 => i :: ends fl text r1 i
  end.

Definition matches_from (fl : flags) (text : str) (r : regex) (i : nat) : bool :=
  match ends fl text r i with
  | [] => false
  | _ :: _ => true
  end.

(** [re.search(r, text) is not None] for a compiled pattern. *)
Definition search_regex (fl : flags) (r : regex) (text : str) : bool :=
  existsb (matches_from fl text r) (seq 0 (S (length text))).



(** *** The pattern syntax *)

Inductive token : Type :=
| TLit (c : ascii)
| TAny
| TCat (k : category)
| TAt (a : anchor)
| TOpen
| TClose
| TBar
| TQuant (q : quant).

(** What follows a backslash.  A backslash before an ASCII letter or digit
    is an error in [re] unless it is one of the known escapes; the known
    escapes outside the list below (back references, octal and hexadecimal
    escapes) are not modelled and are refused too. *)
Definition escape_token (e : ascii) : option token :=
  if Ascii.eqb e "b" then Some (TAt AtBoundary)
  else if Ascii.eqb e "A" then Some (TAt AtBeginningString)
  else if Ascii.eqb e "Z" then Some (TAt AtEndString)
  else if Ascii.eqb e "d" then Some (TCat CatDigit)
  else if Ascii.eqb e "D" then Some (TCat CatNotDigit)
  else if Ascii.eqb e "s" then Some (TCat CatSpace)
  else if Ascii.eqb e "S" then Some (TCat CatNotSpace)
  else if Ascii.eqb e "w" then Some (TCat CatWord)
  else if Ascii.eqb e "W" then Some (TCat CatNotWord)
  else if Ascii.eqb e "n" then Some (TLit "010")
  else if Ascii.eqb e "t" then Some (TLit "009")
  else if Ascii.eqb e "r" then Some (TLit "013")
  else if Ascii.eqb e "f" then Some (TLit "012")
  else if Ascii.eqb e "v" then Some (TLit "011")
  else if Ascii.eqb e "a" then Some (TLit "007")
  else if is_alnum e then None
  else Some (TLit e).

(** A character outside a backslash escape and other than an opening
    parenthesis.  Character sets and counted repetitions are not modelled:
    an unescaped opening bracket or brace is refused. *)
Definition plain_token (c : ascii) : option token :=
  if Ascii.eqb c "." then Some TAny
  else if Ascii.eqb c "^" then Some (TAt AtBeginning)
  else if Ascii.eqb c "$" then Some (TAt AtEnd)
  else if Ascii.eqb c ")" then Some TClose
  else if Ascii.eqb c "|" then Some TBar
  else if Ascii.eqb c "*" then Some (TQuant QStar)
  else if Ascii.eqb c "+" then Some (TQuant QPlus)
  else if Ascii.eqb c "?" then Some (TQuant QOpt)
  else if Ascii.eqb c "[" || Ascii.eqb c "{" then None
  else Some (TLit c).

Definition cons_token (t : token) (ts : option (list token)) : option (list token) :=
  option_map (cons t) ts.

Fixpoint lex (p : str) : option (list token) :=
  match p with
  | [] => Some []
  | c :: p1 =>
    if Ascii.eqb c "\" then
      match p1 with
      | [] => None
      | e :: p2 =>
        match escape_token e with
        | Some t => cons_token t (lex p2)
        | None => None
        end
      end
    else if Ascii.eqb c "(" then
      match p1 with
      | q :: p2 =>
        if Ascii.eqb q "?" then
          match p2 with
          | k :: p3 => if Ascii.eqb k ":" then cons_token TOpen (lex p3) else None
          | [] => None
          end
        else cons_token TOpen (lex p1)
      | [] => cons_token TOpen (lex p1)
      end
    else
      match plain_token c with
      | Some t => cons_token t (lex p1)
      | None => None
      end
  end.

(** The parser keeps, for the group being read, the branches already closed
    by a bar and the items of the current branch, both latest first.  An
    item remembers whether a repetition may follow it. *)
Inductive item_kind : Type :=
| Repeatable           (* a character, a category, a group *)
| Assertion            (* nothing to repeat *)
| Repeated             (* a repetition: only the lazy mark may follow *)
| RepeatedLazy.        (* multiple repeat *)

Record frame : Type := {
  branches : list regex;
  items : list (regex * item_kind)
}.

Definition empty_frame : frame := {| branches := []; items := [] |}.

Fixpoint seq_of (rs : list regex) : regex :=
  match rs with
  | [] => Empty
  | r :: rs' => Seq r (seq_of rs')
  end.

Fixpoint alt_of (r : regex) (rs : list regex) : regex :=
  match rs with
  | [] => r
  | r' :: rs' => Alt r (alt_of r' rs')
  end.

Definition branch_of (f : frame) : regex := seq_of (rev (map fst (items f))).

(** The pattern of a whole group: its branches in the order written. *)
Definition close_frame (f : frame) : regex :=
  match rev (branch_of f :: branches f) with
  | r :: rs => alt_of r rs
  | [] => Empty
  end.

Definition push (r : regex) (k : item_kind) (f : frame) : frame :=
  {| branches := branches f; items := (r, k) :: items f |}.

Definition make_lazy (r : regex) : regex :=
  match r with
  | Repeat q _ r1 => Repeat q false r1
  | _ => r
  end.

Definition apply_quant (q : quant) (f : frame) : option frame :=
  match items f with
  | (r, Repeatable) :: rest =>
    Some {| branches := branches f; items := (Repeat q true r, Repeated) :: rest |}
  | (r, Repeated) :: rest =>
    match q with
    | QOpt => Some {| branches := branches f;
                      items := (make_lazy r, RepeatedLazy) :: rest |}
    | _ => None
    end
  | _ => None
  end.

(** One token, with the frame of the current group and the frames of the
    enclosing groups. *)
Definition parse_step (t : token) (st : frame * list frame) : option (frame * list frame) :=
  let (f, outer) := st in
  match t with
  | TLit c => Some (push (Lit c) Repeatable f, outer)
  | TAny => Some (push AnyChar Repeatable f, outer)
  | TCat k => Some (push (Cat k) Repeatable f, outer)
  | TAt a => Some (push (At a) Assertion f, outer)
  | TOpen => Some (empty_frame, f :: outer)
  | TClose =>
    match outer with
    | g :: outer' => Some (push (close_frame f) Repeatable g, outer')
    | [] => None
    end
  | TBar => Some ({| branches := branch_of f :: branches f; items := [] |}, outer)
  | TQuant q =>
    match apply_quant q f with
    | Some f' => Some (f', outer)
    | None => None
    end
  end.

Fixpoint parse_tokens (ts : list token) (st : frame * list frame) : option regex :=
  match ts with
  | [] =>
    match st with
    | (f, []) => Some (close_frame f)
    | (_, _ :: _) => None
    end
  | t :: ts' =>
    match parse_step t st with
    | Some st' => parse_tokens ts' st'
    | None => None
    end
  end.

Definition parse (p : str) : option regex :=
  match lex p with
  | Some ts => parse_tokens ts (empty_frame, [])
  | None => None
  end.

(** [re.compile]: a pattern outside the syntax above raises [re.error]. *)
Definition compile (p : str) : result regex :=
  match parse p with
  | Some r => Ok r
  | None => Raise ReError
  end.

(** [re.search(pattern, text, flags)] as a truth value. *)
Definition search (fl : flags) (pattern text : str) : result bool :=
  r <- compile pattern ;;
  Ok (search_regex fl r text).

(** *** The patterns the program builds

    The three shapes of pattern the program hands to [re.search], as the
    compiled patterns they are shown below to stand for. *)

Definition word_regex (tok : str) : regex :=
  seq_of (At AtBoundary :: map Lit tok ++ [At AtBoundary]).

Definition word_then_marker_regex (tok marker : str) : regex :=
  seq_of (At AtBoundary ::
          map Lit tok ++ [At AtBoundary; Repeat QStar false AnyChar] ++ map Lit marker).

Definition any_word_regex (tok : str) (toks : list str) : regex :=
  seq_of [At AtBoundary;
          alt_of (seq_of (map Lit tok)) (map (fun t => seq_of (map Lit t)) toks);
          At AtBoundary].

(** Tokens put in front of a lexed remainder. *)
Definition prepend (ts : list token) (o : option (list token)) : option (list token) :=
  option_map (app ts) o.

(** The items a word leaves in the current branch. *)
Definition lits (w : str) : list (regex * item_kind) :=
  map (fun c => (Lit c, Repeatable)) w.

(** The tokens of [ "|".join(...) ] over escaped words. *)
Fixpoint alt_tokens (w : str) (ws : list str) : list token :=
  match ws with
  | [] => map TLit w
  | w' :: ws' => map TLit w ++ TBar :: alt_tokens w' ws'
  end.

(** The branches of a group, in the order written. *)
Definition alts (rs : list regex) : regex :=
  match rs with
  | r :: rs' => alt_of r rs'
  | [] => Empty
  end.

End Re.

(** ** The program *)

Module Notifier.

Import Re.

(** *** Effects

    The program talks to four collaborators: the HTTP fetch, the clock, the
    external command and the Telegram call.  Their answers are given in
    advance, one [Poll] for each turn of the loop; what the program does to
    them, and the calls of its own evaluators, are recorded as a trace. *)

Definition dict := list (str * str).

Inductive event : Type :=
| ParserError (message : str)
| Sleep (seconds : Z)
| Fetch (url method : str) (headers : dict) (timeout : Z)
| Stderr (line : str)
| Stdout (line : str)
| CallRegionIsAvailable (content : str)
| CallMatches (content : str)
| RunCommand (command : str)
| SendTelegram (token chat_id text : str) (timeout : Z).

Definition io (A : Type) : Type := (list event * result A)%type.

Definition ret {A : Type} (a : A) : io A := ([], Ok a).
Definition lift {A : Type} (r : result A) : io A := ([], r).
Definition emit (e : event) : io unit := ([e], Ok tt).
Definition call {A : Type} (e : event) (r : result A) : io A := ([e], r).

Definition io_bind {A B : Type} (m : io A) (k : A -> io B) : io B :=
  match m with
  | (tr, Ok a) => let (tr', b) := k a in (tr ++ tr', b)
  | (tr, Raise e) => (tr, Raise e)
  end.

Notation "x <~ m ;; k" := (io_bind m (fun x => k))
  (at level 61, m at next level, right associativity).
Notation "' p <~ m ;; k" := (io_bind m (fun p => k))
  (at level 61, p pattern, m at next level, right associativity).

Inductive fetch_result : Type :=
| Fetched (content : str)
| FetchFailed (exc : str).

Record Poll : Type := {
  fetched : fetch_result;   (* what [fetch_url] does this turn *)
  now : str;                (* [datetime.now().isoformat(timespec="seconds")] *)
  command_starts : bool;    (* [subprocess.run] returns (whatever the exit status) *)
  telegram_ok : bool        (* [urlopen] of the messaging call returns *)
}.

Record World : Type := {
  json_loads : str -> option dict;
  until_next_hour : Z;      (* [int((next_hour - now).total_seconds())] *)
  polls : list Poll
}.

(** *** The parsed command line *)

Record Args : Type := {
  url : str;
  method : str;
  headers : option str;
  keyword : list str;
  regex : list str;
  region : list str;
  region_available : bool;
  region_unavailable_text : str;
  interval : Z;
  timeout : Z;
  command : option str;
  telegram_token : option str;
  telegram_chat_id : option str;
  telegram_message : str;
  include_matches : bool;
  align_hour : bool;
  once : bool
}.

(** Truth value of an [Optional[str]] and of a list. *)
Definition given (o : option str) : bool :=
  match o with
  | Some x => truthy x
  | None => false
  end.

Definition nonempty {A : Type} (l : list A) : bool :=
  match l with [] => false | _ :: _ => true end.

(** *** [load_headers] *)

Definition load_headers (loads : str -> option dict) (headers_json : option str) : result dict :=
  if negb (given headers_json) then Ok []
  else match headers_json with
       | Some text =>
         match loads text with
         | Some d => Ok d
         | None => Raise ValueError
         end
       | None => Ok []
       end.

Fixpoint dict_set (d : dict) (k v : str) : dict :=
  match d with
  | [] => [(k, v)]
  | (k', v') :: d' => if str_eqb k k' then (k, v) :: d' else (k', v') :: dict_set d' k v
  end.

Definition dict_update (d extra : dict) : dict :=
  fold_left (fun acc kv => dict_set acc (fst kv) (snd kv)) extra d.

(** *** [matches] *)

(** The bodies of the two loops, then the function. *)
Definition keyword_turn (content : str) (hits : list str) (keyword : str) : list str :=
  if contains keyword content then hits ++ [s "keyword:" ++ keyword] else hits.

Definition regex_turn (content : str) (acc : result (list str)) (regex : str)
  : result (list str) :=
  hits <- acc ;;
  found <- search no_flags regex content ;;
  Ok (if found then hits ++ [s "regex:" ++ regex] else hits).

Definition matches (content : str) (keywords regexes : list str) : result (bool * list str) :=
  let hits : list str := [] in
  let hits := fold_left (keyword_turn content) keywords hits in
  hits <- fold_left (regex_turn content) regexes (Ok hits) ;;
  Ok (nonempty hits, hits).

(** *** [build_region_regex] *)

Definition build_region_regex (regions : list str) : option str :=
  let cleaned := map (fun region => upper (strip region))
                     (filter (fun region => truthy (strip region)) regions) in
  if negb (nonempty cleaned) then None
  else
    let pattern := join (s "|") (map escape cleaned) in
    Some (s "\b(?:" ++ pattern ++ s ")\b").

(** *** [region_is_available] *)

Definition unavailable_pattern (region_token unavailable_text : str) : str :=
  s "\b" ++ escape region_token ++ s "\b.*?" ++ escape unavailable_text.

Definition bare_pattern (region_token : str) : str :=
  s "\b" ++ escape region_token ++ s "\b".

(** The body of the loop: [continue] keeps the list as it is. *)
Definition region_turn (content unavailable_text : str)
           (acc : result (list str)) (region : str) : result (list str) :=
  available <- acc ;;
  let region_token := upper (strip region) in
  if negb (truthy region_token) then Ok available
  else
    unavailable <- search ignorecase_dotall
                     (unavailable_pattern region_token unavailable_text) content ;;
    if unavailable then Ok available
    else
      present <- search ignorecase (bare_pattern region_token) content ;;
      Ok (if present then available ++ [region_token] else available).

Definition region_is_available (content : str) (regions : list str) (unavailable_text : str)
  : result (bool * list str) :=
  available <- fold_left (region_turn content unavailable_text) regions (Ok []) ;;
  Ok (nonempty available, available).

(** *** [run_command], [send_telegram_message], [align_to_next_hour] *)

Definition run_command (p : Poll) (command : str) : io unit :=
  call (RunCommand command) (if command_starts p then Ok tt else Raise OSError).

Definition send_telegram_message (p : Poll) (token chat_id text : str) (timeout : Z) : io unit :=
  call (SendTelegram token chat_id text timeout)
       (if telegram_ok p then Ok tt else Raise URLError).

(** [time.sleep] refuses a negative length. *)
Definition sleep (seconds : Z) : io unit :=
  if (seconds <? 0)%Z then lift (Raise ValueError) else emit (Sleep seconds).

Definition align_to_next_hour (w : World) : io unit :=
  let sleep_seconds := Z.max 0 (until_next_hour w) in
  if (sleep_seconds =? 0)%Z then ret tt else sleep sleep_seconds.

(** *** [format_region_message] *)

Definition placeholder : str := s "{regions}".

Definition format_region_message (message : str) (regions : list str) : str :=
  if negb (nonempty regions) then message
  else
    let region_text := join (s ", ") regions in
    if contains placeholder message
    then replace placeholder region_text message
    else message ++ [LF] ++ s "Available regions: " ++ region_text.

(** *** [main] *)

Definition text_of (o : option str) : str :=
  match o with Some x => x | None => [] end.

(** The checks on the parsed arguments; [parser.error] prints the message
    and leaves with status 2. *)
Definition parser_error {A : Type} (message : str) : io A :=
  call (ParserError message) (Raise (SystemExit 2)).

Definition validate (args : Args) : io unit :=
  _ <~ (if negb (nonempty (keyword args)) && negb (nonempty (regex args))
        then parser_error (s "Provide at least one of --keyword or --regex.")
        else ret tt) ;;
  if (given (telegram_token args) && negb (given (telegram_chat_id args)))
     || (given (telegram_chat_id args) && negb (given (telegram_token args)))
  then parser_error (s "Provide both --telegram-token and --telegram-chat-id together.")
  else ret tt.

(** The [else] branch of the [try], up to the test [if matched and region_ok]:
    the decision with the rules that fired and the regions deemed
    available.  [region_filter] is its first step, the simple region gate
    ([region_ok = True], replaced by the outcome of [re.search] when a region
    pattern was built). *)
Definition region_filter (region_regex : option str) (content : str) : result bool :=
  let region_ok := true in
  match region_regex with
  | Some pattern => search no_flags pattern content
  | None => Ok region_ok
  end.

Definition evaluate (args : Args) (region_regex : option str) (content : str)
  : io (bool * list str * list str) :=
  let available_regions : list str := [] in
  region_ok <~ lift (region_filter region_regex content) ;;
  '(region_ok, available_regions) <~
     (if region_ok && region_available args && nonempty (region args)
      then call (CallRegionIsAvailable content)
                (region_is_available content (region args) (region_unavailable_text args))
      else ret (region_ok, available_regions)) ;;
  '(matched, hits) <~ call (CallMatches content)
                           (matches content (keyword args) (regex args)) ;;
  ret (matched && region_ok, hits, available_regions).

(** The text handed to the messaging call. *)
Definition build_message (args : Args) (region_regex : option str)
           (hits available_regions : list str) : str :=
  let message := telegram_message args in
  let message :=
    if region_available args && nonempty available_regions
    then format_region_message message available_regions
    else message in
  if include_matches args then
    let match_details := hits in
    let match_details :=
      match region_regex with
      | Some pattern => match_details ++ [s "region:" ++ pattern]
      | None => match_details
      end in
    let match_details :=
      if nonempty available_regions
      then match_details ++ [s "region_available:" ++ join (s ", ") available_regions]
      else match_details in
    message ++ [LF] ++ s "Matches: " ++ join (s ", ") match_details
  else message.

(** What follows a positive decision.  [Some code] is [return code]. *)
Definition dispatch (args : Args) (region_regex : option str) (p : Poll)
           (hits available_regions : list str) : io (option Z) :=
  _ <~ emit (Stdout (s "[" ++ now p ++ s "] Match detected.")) ;;
  _ <~ (if given (command args) then run_command p (text_of (command args)) else ret tt) ;;
  _ <~ (if given (telegram_token args) && given (telegram_chat_id args)
        then send_telegram_message p (text_of (telegram_token args))
                                   (text_of (telegram_chat_id args))
                                   (build_message args region_regex hits available_regions)
                                   (timeout args)
        else ret tt) ;;
  if once args then ret (Some 0%Z) else ret None.

(** One turn of [while True]. *)
Definition iteration (args : Args) (hdrs : dict) (region_regex : option str) (p : Poll)
  : io (option Z) :=
  _ <~ emit (Fetch (url args) (method args) hdrs (timeout args)) ;;
  returned <~ match fetched p with
              | FetchFailed exc =>
                _ <~ emit (Stderr (s "[" ++ now p ++ s "] Request failed: " ++ exc)) ;;
                ret None
              | Fetched content =>
                '(triggered, hits, available_regions) <~ evaluate args region_regex content ;;
                if (triggered : bool)
                then dispatch args region_regex p hits available_regions
                else ret None
              end ;;
  match returned with
  | Some code => ret (Some code)
  | None => _ <~ sleep (interval args) ;; ret None
  end.

Fixpoint loop (args : Args) (hdrs : dict) (region_regex : option str) (ps : list Poll)
  : io (option Z) :=
  match ps with
  | [] => ret None
  | p :: ps' =>
    returned <~ iteration args hdrs region_regex p ;;
    match returned with
    | Some code => ret (Some code)
    | None => loop args hdrs region_regex ps'
    end
  end.

Definition main (args : Args) (w : World) : io (option Z) :=
  _ <~ validate args ;;
  let hdrs := [(s "User-Agent", s "hidencloud-notifier/1.0")] in
  extra <~ lift (load_headers (json_loads w) (headers args)) ;;
  let hdrs := dict_update hdrs extra in
  let region_regex := build_region_regex (region args) in
  _ <~ (if align_hour args then align_to_next_hour w else ret tt) ;;
  loop args hdrs region_regex (polls w).

(** How the process ends: [raise SystemExit(main())]. *)
Inductive outcome : Type :=
| Exited (code : Z)        (* the process has left with this status *)
| Uncaught (e : exn)       (* an exception reached the top level *)
| StillPolling.            (* the loop is waiting for the next answer *)

Definition run (args : Args) (w : World) : list event * outcome :=
  match main args w with
  | (tr, Ok (Some code)) => (tr, Exited code)
  | (tr, Ok None) => (tr, StillPolling)
  | (tr, Raise (SystemExit code)) => (tr, Exited code)
  | (tr, Raise e) => (tr, Uncaught e)
  end.

End Notifier.

(** ** The words of the specification

    Direct definitions, on slices of the text, of what the specification
    says in words: a token read at a position between word boundaries, a
    token followed later by the marker, the normalised tokens. *)

Module Spec.

Import Re Notifier.

(** [text[i:i+n]] *)
Definition slice (text : str) (i n : nat) : str := firstn n (skipn i text).

Definition fold_case (x : str) : str := map to_lower x.

(** [w] is read at position [i] of [text], with or without regard to
    letter case. *)
Definition reads (ci : bool) (w text : str) (i : nat) : bool :=
  if ci
  then str_eqb (fold_case (slice text i (length w))) (fold_case w)
  else str_eqb (slice text i (length w)) w.

(** The token stands at position [i] between two word boundaries. *)
Definition token_at (ci : bool) (tok text : str) (i : nat) : bool :=
  boundary text i && reads ci tok text i && boundary text (i + length tok).

Definition positions (text : str) : list nat := seq 0 (S (length text)).

(** The text contains the token between word boundaries. *)
Definition has_token (ci : bool) (tok text : str) : bool :=
  existsb (token_at ci tok text) (positions text).

(** Some occurrence of the token (word boundaries, any letter case) is
    followed, at any distance, by the marker (any letter case). *)
Definition marker_follows (tok marker text : str) : bool :=
  existsb (fun i =>
             token_at true tok text i &&
             existsb (fun j => (i + length tok <=? j) && reads true marker text j)
                     (positions text))
          (positions text).

(** A configured token as the evaluators use it. *)
Definition normalize (region : str) : str := upper (strip region).

(** The configured tokens, normalised, the blank ones dropped. *)
Definition tokens (regions : list str) : list str :=
  filter truthy (map normalize regions).

(** The region evaluator's verdict on one normalised token. *)
Definition deemed_available (text marker tok : str) : bool :=
  negb (marker_follows tok marker text) && has_token true tok text.

(** The available regions: the normalised tokens deemed available, in the
    order of the configuration. *)
Definition available_tokens (text : str) (regions : list str) (marker : str) : list str :=
  filter (deemed_available text marker) (tokens regions).

(** Some normalised token stands in the text between word boundaries,
    letter for letter; no filter when every configured token is blank. *)
Definition filter_passes (regions : list str) (text : str) : bool :=
  match tokens regions with
  | [] => true
  | toks => existsb (fun tok => has_token false tok text) toks
  end.


(** The pattern is one the [re] model compiles. *)
Definition compiles (pattern : str) : bool :=
  match compile pattern with
  | Ok _ => true
  | Raise _ => false
  end.

(** The pattern matches somewhere in the text. *)
Definition regex_fires (text pattern : str) : bool :=
  match search no_flags pattern text with
  | Ok found => found
  | Raise _ => false
  end.

(** The fired-rule list: the firing keywords, then the firing patterns. *)
Definition fired_rules (text : str) (keywords regexes : list str) : list str :=
  map (app (s "keyword:")) (filter (fun k => contains k text) keywords) ++
  map (app (s "regex:")) (filter (regex_fires text) regexes).

(** Kinds of event in a trace. *)
Definition is_fetch (e : event) : bool :=
  match e with Fetch _ _ _ _ => true | _ => false end.

Definition is_sleep (e : event) : bool :=
  match e with Sleep _ => true | _ => false end.

Definition is_failure_line (e : event) : bool :=
  match e with Stderr _ => true | _ => false end.

(** A call of the region evaluator or of the match evaluator. *)
Definition is_evaluation (e : event) : bool :=
  match e with CallRegionIsAvailable _ | CallMatches _ => true | _ => false end.

(** The line printed on a trigger, which opens the dispatch. *)
Definition is_trigger_line (e : event) : bool :=
  match e with Stdout _ => true | _ => false end.

Definition is_command (e : event) : bool :=
  match e with RunCommand _ => true | _ => false end.

Definition is_message (e : event) : bool :=
  match e with SendTelegram _ _ _ _ => true | _ => false end.

Definition is_dispatch (e : event) : bool :=
  is_trigger_line e || is_command e || is_message e.

Definition count (kind : event -> bool) (tr : list event) : nat :=
  length (filter kind tr).

(** What the loop does on a poll whose fetch fails. *)
Definition failure_text (p : Poll) : str :=
  match fetched p with
  | FetchFailed exc => exc
  | Fetched _ => []
  end.

Definition failure_trace (args : Args) (hdrs : dict) (p : Poll) : list event :=
  [Fetch (url args) (method args) hdrs (timeout args);
   Stderr (s "[" ++ now p ++ s "] Request failed: " ++ failure_text p);
   Sleep (interval args)].

(** The fetch of this poll succeeds and the decision on its content is
    [d]. *)
Definition decided (args : Args) (region_regex : option str) (p : Poll) (d : bool) : Prop :=
  exists content tr hits available,
    fetched p = Fetched content /\
    evaluate args region_regex content = (tr, Ok (d, hits, available)).

(** The poll leads to no dispatch: its fetch fails, or the decision on
    its content is negative. *)
Definition quiet (args : Args) (region_regex : option str) (p : Poll) : Prop :=
  (exists exc, fetched p = FetchFailed exc) \/ decided args region_regex p false.

(** What the optional alignment to the next hour does before the loop. *)
Definition alignment_trace (args : Args) (w : World) : list event :=
  if align_hour args && (0 <? until_next_hour w)%Z
  then [Sleep (until_next_hour w)]
  else [].

(** The collaborators of the dispatch that are configured return. *)
Definition dispatch_returns (args : Args) (p : Poll) : Prop :=
  (given (command args) = true -> command_starts p = true) /\
  (given (telegram_token args) = true -> given (telegram_chat_id args) = true ->
   telegram_ok p = true).

(** What the dispatch does when its collaborators return. *)
Definition dispatch_trace (args : Args) (rr : option str) (p : Poll)
           (hits available : list str) : list event :=
  [Stdout (s "[" ++ now p ++ s "] Match detected.")] ++
  (if given (command args) then [RunCommand (text_of (command args))] else []) ++
  (if given (telegram_token args) && given (telegram_chat_id args)
   then [SendTelegram (text_of (telegram_token args)) (text_of (telegram_chat_id args))
                      (build_message args rr hits available) (timeout args)]
   else []).

(** The end-to-end scenario of the specification: one keyword, the region
    SG in availability mode, the marker [sold out], single-shot mode. *)
Definition scenario_args : Args := {|
  url := s "https://example.org/status";
  method := s "GET";
  headers := None;
  keyword := [s "available"];
  regex := [];
  region := [s "SG"];
  region_available := true;
  region_unavailable_text := s "sold out";
  interval := 25;
  timeout := 10;
  command := None;
  telegram_token := None;
  telegram_chat_id := None;
  telegram_message := s "Resource is available.";
  include_matches := false;
  align_hour := false;
  once := true
|}.

Definition answer (content : str) : Poll := {|
  fetched := Fetched content;
  now := s "2026-01-01T00:00:00";
  command_starts := true;
  telegram_ok := true
|}.

Definition scenario_world : World := {|
  json_loads := fun _ => None;
  until_next_hour := 0;
  polls := [answer (s "SG sold out, DE available");
            answer (s "SG available now");
            answer (s "SG available now")]
|}.

(** The same configuration with messaging credentials, and a world where
    the messaging call fails in transport. *)
Definition messaging_args : Args := {|
  url := s "https://example.org/status";
  method := s "GET";
  headers := None;
  keyword := [s "available"];
  regex := [];
  region := [];
  region_available := false;
  region_unavailable_text := s "full and unavailable";
  interval := 25;
  timeout := 10;
  command := None;
  telegram_token := Some (s "123:abc");
  telegram_chat_id := Some (s "42");
  telegram_message := s "Resource is available.";
  include_matches := false;
  align_hour := false;
  once := false
|}.

Definition unreachable (content : str) : Poll := {|
  fetched := Fetched content;
  now := s "2026-01-01T00:00:00";
  command_starts := true;
  telegram_ok := false
|}.

Definition messaging_down : World := {|
  json_loads := fun _ => None;
  until_next_hour := 0;
  polls := [unreachable (s "SG available now"); answer (s "SG available now")]
|}.

Definition timed_out (exc : str) : Poll := {|
  fetched := FetchFailed exc;
  now := s "2026-01-01T00:00:00";
  command_starts := true;
  telegram_ok := true
|}.

End Spec.

(** ** More of the program, and the words for its further properties *)

Module More.

Import Re Notifier Spec.

(** *** The clock of [align_to_next_hour]

    [datetime.now()] within its hour.  [next_hour - now] is a whole number
    of microseconds below 3600 seconds, which [total_seconds()] gives as a
    float without loss that matters to [int()]: the spacing of floats near
    3600 is far below a microsecond, so truncation yields the whole seconds of
    the exact value. *)
Record wall_clock : Type := {
  minute : Z;
  second : Z;
  microsecond : Z
}.

Definition valid_clock (c : wall_clock) : Prop :=
  (0 <= minute c <= 59)%Z /\ (0 <= second c <= 59)%Z /\
  (0 <= microsecond c <= 999999)%Z.

Definition micros_past_hour (c : wall_clock) : Z :=
  ((minute c * 60 + second c) * 1000000 + microsecond c)%Z.

(** [int((next_hour - now).total_seconds())] *)
Definition seconds_to_next_hour (c : wall_clock) : Z :=
  Z.quot (3600 * 1000000 - micros_past_hour c) 1000000.

(** A world whose alignment reading comes from this clock. *)
Definition world_at (c : wall_clock) (loads : str -> option dict) (ps : list Poll) : World :=
  {| json_loads := loads; until_next_hour := seconds_to_next_hour c; polls := ps |}.

(** *** Header dictionaries *)

(** [d.get(k)] *)
Fixpoint dict_get (d : dict) (k : str) : option str :=
  match d with
  | [] => None
  | (k', v) :: d' => if str_eqb k k' then Some v else dict_get d' k
  end.

(** The value the last pair with key [k] gives, in a list of pairs read
    from left to right. *)
Definition last_binding (pairs : dict) (k : str) : option str :=
  dict_get (rev pairs) k.

Definition default_headers : dict := [(s "User-Agent", s "hidencloud-notifier/1.0")].

(** The headers [main] sends, given what [load_headers] returned. *)
Definition request_headers (extra : dict) : dict := dict_update default_headers extra.

(** *** Pacing of the loop *)

(** A fetch is allowed when [ready]; a sleep of the configured length makes
    the loop ready again, and is made only when it is not. *)
Fixpoint paced (i : Z) (ready : bool) (tr : list event) : bool :=
  match tr with
  | [] => true
  | Fetch _ _ _ _ :: tr' => ready && paced i false tr'
  | Sleep seconds :: tr' => negb ready && (seconds =? i)%Z && paced i true tr'
  | _ :: tr' => paced i ready tr'
  end.

Fixpoint ready_after (ready : bool) (tr : list event) : bool :=
  match tr with
  | [] => ready
  | Fetch _ _ _ _ :: tr' => ready_after false tr'
  | Sleep _ :: tr' => ready_after true tr'
  | _ :: tr' => ready_after ready tr'
  end.

Definition is_match_call (e : event) : bool :=
  match e with CallMatches _ => true | _ => false end.

Definition is_region_call (e : event) : bool :=
  match e with CallRegionIsAvailable _ => true | _ => false end.

Definition is_parser_error (e : event) : bool :=
  match e with ParserError _ => true | _ => false end.

(** The arguments pass the checks of [main]. *)
Definition valid_args (args : Args) : bool :=
  (nonempty (keyword args) || nonempty (regex args)) &&
  negb (xorb (given (telegram_token args)) (given (telegram_chat_id args))).

Definition credentials (args : Args) : bool :=
  given (telegram_token args) && given (telegram_chat_id args).

(** The fetch of this poll succeeds, the decision on its content is
    positive, and the collaborators of the dispatch return. *)
Definition notified (args : Args) (region_regex : option str) (p : Poll) : Prop :=
  decided args region_regex p true /\ dispatch_returns args p.

(** What one turn leaves in the trace and how it ends. *)
Record turn_facts (args : Args) (hdrs : dict) (tr : list event) (r : result (option Z))
  : Prop := {
  turn_fetch :
    exists body, tr = Fetch (url args) (method args) hdrs (timeout args) :: body /\
                 count is_fetch body = 0;
  turn_paced : paced (interval args) true tr = true;
  turn_ready : r = Ok None -> ready_after true tr = true;
  turn_sleep : count is_sleep tr = match r with Ok None => 1 | _ => 0 end;
  turn_interval : r = Ok None -> (0 <= interval args)%Z;
  turn_trigger : count is_trigger_line tr <= count is_match_call tr;
  turn_match : count is_match_call tr <= 1;
  turn_command : count is_command tr <= count is_trigger_line tr;
  turn_message : count is_message tr <= count is_trigger_line tr;
  turn_no_credentials : credentials args = false -> count is_message tr = 0;
  turn_no_command : given (command args) = false -> count is_command tr = 0;
  turn_return :
    forall code, r = Ok (Some code) ->
                 code = 0%Z /\ once args = true /\ count is_trigger_line tr = 1;
  turn_once : r = Ok None -> once args = true -> count is_trigger_line tr = 0;
  turn_raise : forall e, r = Raise e -> forall code, e <> SystemExit code;
  turn_parser : count is_parser_error tr = 0
}.

(** *** Inputs for the examples *)

(** A command is configured, and a turn on which it cannot be started. *)
Definition command_args : Args := {|
  url := s "https://example.org/status";
  method := s "GET";
  headers := None;
  keyword := [s "available"];
  regex := [];
  region := [];
  region_available := false;
  region_unavailable_text := s "full and unavailable";
  interval := 25;
  timeout := 10;
  command := Some (s "notify-send available");
  telegram_token := Some (s "123:abc");
  telegram_chat_id := Some (s "42");
  telegram_message := s "Resource is available.";
  include_matches := false;
  align_hour := false;
  once := false
|}.

Definition not_started (content : str) : Poll := {|
  fetched := Fetched content;
  now := s "2026-01-01T00:00:00";
  command_starts := false;
  telegram_ok := true
|}.

(** A negative interval, as [--interval -1] gives. *)
Definition hasty_args : Args := {|
  url := s "https://example.org/status";
  method := s "GET";
  headers := None;
  keyword := [s "available"];
  regex := [];
  region := [];
  region_available := false;
  region_unavailable_text := s "full and unavailable";
  interval := -1;
  timeout := 10;
  command := None;
  telegram_token := None;
  telegram_chat_id := None;
  telegram_message := s "Resource is available.";
  include_matches := false;
  align_hour := false;
  once := false
|}.

(** Headers are given; the world reads them as one pair, or not at all. *)
Definition header_args : Args := {|
  url := s "https://example.org/status";
  method := s "GET";
  headers := Some (s "{}");
  keyword := [s "available"];
  regex := [];
  region := [];
  region_available := false;
  region_unavailable_text := s "full and unavailable";
  interval := 25;
  timeout := 10;
  command := None;
  telegram_token := None;
  telegram_chat_id := None;
  telegram_message := s "Resource is available.";
  include_matches := false;
  align_hour := false;
  once := false
|}.

Definition header_world : World := {|
  json_loads := fun _ => Some [(s "User-Agent", s "curl/8"); (s "Accept", s "text/html")];
  until_next_hour := 0;
  polls := [answer (s "nothing yet")]
|}.

Definition half_past : wall_clock := {| minute := 30; second := 15; microsecond := 250000 |}.

End More.

(** * Properties *)

(** ** Strings *)

Module PyStrFacts.

Lemma str_eqb_eq (x y : str) : str_eqb x y = true <-> x = y.
Proof.
  unfold str_eqb. destruct (list_eq_dec ascii_dec x y); split; congruence.
Qed.

Lemma truthy_nil_iff (x : str) : truthy x = false <-> x = [].
Proof. destruct x; simpl; split; congruence. Qed.


Lemma upper_length (x : str) : length (upper x) = length x.
Proof. apply length_map. Qed.

Lemma truthy_upper (x : str) : truthy (upper x) = truthy x.
Proof. destruct x; reflexivity. Qed.

Lemma starts_with_app (p x : str) : starts_with p (p ++ x) = true.
Proof.
  induction p as [|c p IH]; simpl; [reflexivity|].
  rewrite Ascii.eqb_refl. exact IH.
Qed.



Lemma contains_nil (x : str) : contains [] x = true.
Proof. destruct x; reflexivity. Qed.







End PyStrFacts.

(** ** The [re] module: what the matcher computes *)

Module ReFacts.

Import Re Spec PyStrFacts.

Section Matching.

Variable fl : flags.
Variable text : str.

Lemma ends_seq (r1 r2 : regex) (i k : nat) :
  In k (ends fl text (Seq r1 r2) i) <->
  exists j, In j (ends fl text r1 i) /\ In k (ends fl text r2 j).
Proof. simpl. apply in_flat_map. Qed.

Lemma ends_at (a : anchor) (i j : nat) :
  In j (ends fl text (At a) i) <-> j = i /\ holds a text i = true.
Proof.
  simpl. destruct (holds a text i); simpl; intuition congruence.
Qed.

Lemma ends_seq_of_app (rs1 rs2 : list regex) (i k : nat) :
  In k (ends fl text (seq_of (rs1 ++ rs2)) i) <->
  exists j, In j (ends fl text (seq_of rs1) i) /\ In k (ends fl text (seq_of rs2) j).
Proof.
  revert i. induction rs1 as [|r rs1 IH]; intros i.
  - simpl. split.
    + intros H. exists i. auto.
    + intros [j [[<- | []] H]]. exact H.
  - cbn [app seq_of]. rewrite ends_seq. split.
    + intros [j [Hj Hk]]. apply IH in Hk. destruct Hk as [j' [Hj' Hk]].
      exists j'. split; [|exact Hk]. apply ends_seq. exists j. auto.
    + intros [j' [Hj' Hk]]. apply ends_seq in Hj'. destruct Hj' as [j [Hj Hj']].
      exists j. split; [exact Hj|]. apply IH. exists j'. auto.
Qed.

Lemma ends_alt_of (r : regex) (rs : list regex) (i j : nat) :
  In j (ends fl text (alt_of r rs) i) <->
  exists r', In r' (r :: rs) /\ In j (ends fl text r' i).
Proof.
  revert r. induction rs as [|r2 rs IH]; intros r.
  - simpl. split.
    + intros H. exists r. auto.
    + intros [r' [[<- | []] H]]. exact H.
  - cbn [alt_of ends]. rewrite in_app_iff, IH. split.
    + intros [H | [r' [Hin H]]].
      * exists r. split; [left; reflexivity | exact H].
      * exists r'. split; [right; exact Hin | exact H].
    + intros [r' [[<- | Hin] H]].
      * left. exact H.
      * right. exists r'. auto.
Qed.

(** Reading a word character by character. *)
Lemma slice_cons (i n : nat) :
  slice text i (S n) =
  match char_at text i with
  | Some d => d :: slice text (S i) n
  | None => []
  end.
Proof.
  unfold slice, char_at. revert i. induction text as [|c t IH]; intros i.
  - destruct i; reflexivity.
  - destruct i as [|i]; [reflexivity|]. simpl skipn. simpl nth_error. apply IH.
Qed.

Lemma reads_nil (ci : bool) (i : nat) : reads ci [] text i = true.
Proof. unfold reads, slice. simpl. destruct ci; reflexivity. Qed.

Lemma reads_cons (c : ascii) (w : str) (i : nat) :
  reads (IGNORECASE fl) (c :: w) text i = true <->
  exists d, char_at text i = Some d /\ lit_eqb fl c d = true /\
            reads (IGNORECASE fl) w text (S i) = true.
Proof.
  unfold reads, lit_eqb. cbn [length]. rewrite slice_cons.
  destruct (char_at text i) as [d|].
  - destruct (IGNORECASE fl); cbn [fold_case map]; rewrite str_eqb_eq; split.
    + intros H. injection H as H1 H2. exists d. rewrite H1, Ascii.eqb_refl.
      repeat split. apply str_eqb_eq. exact H2.
    + intros [d' [Hd [Hc Hw]]]. injection Hd as <-. apply Ascii.eqb_eq in Hc.
      apply str_eqb_eq in Hw. rewrite Hc. f_equal. exact Hw.
    + intros H. injection H as H1 H2. exists d. rewrite H1, Ascii.eqb_refl.
      repeat split. apply str_eqb_eq. exact H2.
    + intros [d' [Hd [Hc Hw]]]. injection Hd as <-. apply Ascii.eqb_eq in Hc.
      apply str_eqb_eq in Hw. rewrite Hc. f_equal. exact Hw.
  - split.
    + destruct (IGNORECASE fl); intros H; apply str_eqb_eq in H; discriminate.
    + intros [d [Hd _]]. discriminate.
Qed.

Lemma ends_lits (w : str) (i j : nat) :
  In j (ends fl text (seq_of (map Lit w)) i) <->
  j = i + length w /\ reads (IGNORECASE fl) w text i = true.
Proof.
  revert i. induction w as [|c w IH]; intros i.
  - simpl. rewrite reads_nil. split.
    + intros [<- | []]. split; [lia | reflexivity].
    + intros [-> _]. left. lia.
  - cbn [map seq_of]. rewrite ends_seq, reads_cons. cbn [ends]. unfold one_char.
    split.
    + intros [k [Hk Hj]]. apply IH in Hj. destruct Hj as [-> Hr].
      destruct (char_at text i) as [d|]; [|contradiction].
      destruct (lit_eqb fl c d) eqn:Hc; [|contradiction].
      destruct Hk as [<- | []]. split; [simpl; lia|]. exists d. auto.
    + intros [-> [d [Hd [Hc Hr]]]]. exists (S i). rewrite Hd, Hc. split; [left; reflexivity|].
      apply IH. split; [simpl; lia | exact Hr].
Qed.

Lemma reads_in_text (ci : bool) (w : str) (i : nat) :
  reads ci w text i = true -> i <= length text -> i + length w <= length text.
Proof.
  unfold reads, slice, fold_case. intros H Hi.
  assert (Hlen : length (firstn (length w) (skipn i text)) = length w).
  { destruct ci; apply str_eqb_eq in H.
    - apply (f_equal (@length ascii)) in H. rewrite !length_map in H. exact H.
    - rewrite H. reflexivity. }
  rewrite length_firstn, length_skipn in Hlen. lia.
Qed.

(** [.*] under [DOTALL] reaches every later position of the text. *)
Lemma ends_any_dotall (i : nat) :
  DOTALL fl = true ->
  ends fl text AnyChar i = if i <? length text then [S i] else [].
Proof.
  intros Hdot. cbn [ends]. unfold one_char, char_at. rewrite Hdot. cbn [orb].
  destruct (nth_error text i) as [d|] eqn:Hd.
  - assert (Hi : i < length text) by (apply nth_error_Some; congruence).
    apply Nat.ltb_lt in Hi. rewrite Hi. reflexivity.
  - apply nth_error_None in Hd. apply Nat.ltb_ge in Hd. rewrite Hd. reflexivity.
Qed.

Lemma iterate_any (fuel i j : nat) :
  DOTALL fl = true ->
  In j (iterate (ends fl text AnyChar) fuel i) <->
  i <= j /\ j <= i + fuel /\ (j = i \/ j <= length text).
Proof.
  intros Hdot. pose proof (fun i => ends_any_dotall i Hdot) as Hf.
  remember (ends fl text AnyChar) as f eqn:Ef. clear Ef.
  revert i. induction fuel as [|fuel IH]; intros i.
  - simpl. split; [intros [<- | []]; lia | intros [? [? ?]]; left; lia].
  - cbn [iterate]. rewrite Hf. destruct (i <? length text) eqn:Hi.
    + apply Nat.ltb_lt in Hi.
      cbn [filter]. replace (i <? S i) with true by (symmetry; apply Nat.ltb_lt; lia).
      cbn [flat_map]. rewrite app_nil_r. cbn [In]. rewrite IH. lia.
    + apply Nat.ltb_ge in Hi. cbn [filter flat_map In]. lia.
Qed.

Lemma matches_from_iff (r : regex) (i : nat) :
  matches_from fl text r i = true <-> exists j, In j (ends fl text r i).
Proof.
  unfold matches_from. destruct (ends fl text r i) as [|j l].
  - split; [discriminate | intros [j []]].
  - split; [intros _; exists j; left; reflexivity | reflexivity].
Qed.

Lemma in_positions (i : nat) : In i (positions text) <-> i <= length text.
Proof. unfold positions. rewrite in_seq. lia. Qed.

Lemma search_regex_iff (r : regex) :
  search_regex fl r text = true <->
  exists i j, i <= length text /\ In j (ends fl text r i).
Proof.
  unfold search_regex. rewrite existsb_exists. split.
  - intros [i [Hi Hm]]. apply in_positions in Hi. apply matches_from_iff in Hm.
    destruct Hm as [j Hj]. exists i, j. auto.
  - intros [i [j [Hi Hj]]]. exists i. split; [apply in_positions; exact Hi|].
    apply matches_from_iff. exists j. exact Hj.
Qed.

Lemma ends_word_regex (tok : str) (i j : nat) :
  In j (ends fl text (word_regex tok) i) <->
  j = i + length tok /\ token_at (IGNORECASE fl) tok text i = true.
Proof.
  unfold word_regex, token_at. cbn [seq_of]. rewrite ends_seq.
  rewrite !andb_true_iff. split.
  - intros [i' [Hb Hrest]]. apply ends_at in Hb. destruct Hb as [-> Hb].
    apply ends_seq_of_app in Hrest. destruct Hrest as [k [Hk Hj]].
    apply ends_lits in Hk. destruct Hk as [-> Hr].
    cbn [seq_of] in Hj. apply ends_seq in Hj. destruct Hj as [k [Hk Hj]].
    apply ends_at in Hk. destruct Hk as [-> He]. simpl in Hj.
    destruct Hj as [<- | []]. auto.
  - intros [-> [[Hb Hr] He]]. exists i. split; [apply ends_at; auto|].
    apply ends_seq_of_app. exists (i + length tok). split; [apply ends_lits; auto|].
    cbn [seq_of]. apply ends_seq. exists (i + length tok).
    split; [apply ends_at; auto | left; reflexivity].
Qed.

Lemma ends_word_then_marker_regex (tok marker : str) (i k : nat) :
  DOTALL fl = true -> i <= length text ->
  In k (ends fl text (word_then_marker_regex tok marker) i) <->
  token_at (IGNORECASE fl) tok text i = true /\
  exists j, i + length tok <= j /\ j <= length text /\
            reads (IGNORECASE fl) marker text j = true /\ k = j + length marker.
Proof.
  intros Hdot Hi. unfold word_then_marker_regex, token_at. cbn [seq_of].
  rewrite ends_seq. rewrite !andb_true_iff. split.
  - intros [i' [Hb Hrest]]. apply ends_at in Hb. destruct Hb as [-> Hb].
    apply ends_seq_of_app in Hrest. destruct Hrest as [e [He Hk]].
    apply ends_lits in He. destruct He as [-> Hr].
    assert (Hin : i + length tok <= length text) by (eapply reads_in_text; eauto).
    cbn [app seq_of] in Hk. apply ends_seq in Hk. destruct Hk as [e [He Hk]].
    apply ends_at in He. destruct He as [-> He].
    apply ends_seq in Hk. destruct Hk as [j [Hj Hk]].
    cbn [ends] in Hj. apply iterate_any in Hj; [|exact Hdot].
    apply ends_lits in Hk. destruct Hk as [-> Hm].
    split; [auto|]. exists j. repeat split; try assumption; lia.
  - intros [[[Hb Hr] He] [j [Hle [Hj [Hm ->]]]]]. exists i. split; [apply ends_at; auto|].
    apply ends_seq_of_app. exists (i + length tok). split; [apply ends_lits; auto|].
    cbn [app seq_of]. apply ends_seq. exists (i + length tok).
    split; [apply ends_at; auto|].
    apply ends_seq. exists j. split.
    + cbn [ends]. apply iterate_any; [exact Hdot|]. lia.
    + apply ends_lits. auto.
Qed.

Lemma ends_any_word_regex (tok : str) (toks : list str) (i j : nat) :
  In j (ends fl text (any_word_regex tok toks) i) <->
  exists t, In t (tok :: toks) /\ j = i + length t /\
            token_at (IGNORECASE fl) t text i = true.
Proof.
  unfold any_word_regex, token_at. cbn [seq_of]. rewrite ends_seq. split.
  - intros [i' [Hb Hrest]]. apply ends_at in Hb. destruct Hb as [-> Hb].
    apply ends_seq in Hrest. destruct Hrest as [e [He Hj]].
    apply ends_alt_of in He. destruct He as [r [Hr He]].
    change (seq_of (map Lit tok) :: map (fun t => seq_of (map Lit t)) toks)
      with (map (fun t => seq_of (map Lit t)) (tok :: toks)) in Hr.
    apply in_map_iff in Hr. destruct Hr as [t [<- Ht]].
    apply ends_lits in He. destruct He as [-> Hr].
    apply ends_seq in Hj. destruct Hj as [e [He Hj]].
    apply ends_at in He. destruct He as [-> He]. simpl in Hj. destruct Hj as [<- | []].
    change (boundary text i = true) in Hb.
    change (boundary text (i + length t) = true) in He.
    exists t. rewrite Hb, Hr, He. auto.
  - intros [t [Ht [-> H]]]. rewrite !andb_true_iff in H. destruct H as [[Hb Hr] He].
    exists i. split; [apply ends_at; auto|].
    apply ends_seq. exists (i + length t). split.
    + apply ends_alt_of. exists (seq_of (map Lit t)). split; [|apply ends_lits; auto].
      change (seq_of (map Lit tok) :: map (fun t => seq_of (map Lit t)) toks)
        with (map (fun t => seq_of (map Lit t)) (tok :: toks)).
      apply in_map_iff. exists t. auto.
    + apply ends_seq. exists (i + length t). split; [apply ends_at; auto | left; reflexivity].
Qed.

(** [re.search] on the three shapes, in the words of the specification. *)

Lemma has_token_iff (ci : bool) (tok : str) :
  has_token ci tok text = true <->
  exists i, i <= length text /\ token_at ci tok text i = true.
Proof.
  unfold has_token. rewrite existsb_exists. split; intros [i [H1 H2]]; exists i;
    (split; [apply in_positions; exact H1 | exact H2]).
Qed.

Lemma marker_follows_iff (tok marker : str) :
  marker_follows tok marker text = true <->
  exists i j, i <= length text /\ token_at true tok text i = true /\
              i + length tok <= j /\ j <= length text /\ reads true marker text j = true.
Proof.
  unfold marker_follows. rewrite existsb_exists. split.
  - intros [i [Hi H]]. apply in_positions in Hi. apply andb_true_iff in H.
    destruct H as [Ht H]. apply existsb_exists in H. destruct H as [j [Hj H]].
    apply in_positions in Hj. apply andb_true_iff in H. destruct H as [Hle Hm].
    apply Nat.leb_le in Hle. exists i, j. auto.
  - intros [i [j [Hi [Ht [Hle [Hj Hm]]]]]]. exists i. split; [apply in_positions; exact Hi|].
    apply andb_true_iff. split; [exact Ht|]. apply existsb_exists. exists j.
    split; [apply in_positions; exact Hj|]. apply andb_true_iff. split; [|exact Hm].
    apply Nat.leb_le. exact Hle.
Qed.

Lemma search_word_regex (tok : str) :
  search_regex fl (word_regex tok) text = has_token (IGNORECASE fl) tok text.
Proof.
  apply eq_true_iff_eq. rewrite search_regex_iff, has_token_iff. split.
  - intros [i [j [Hi Hj]]]. apply ends_word_regex in Hj. exists i. tauto.
  - intros [i [Hi Ht]]. exists i, (i + length tok). split; [exact Hi|].
    apply ends_word_regex. auto.
Qed.

Lemma search_any_word_regex (tok : str) (toks : list str) :
  search_regex fl (any_word_regex tok toks) text =
  existsb (fun t => has_token (IGNORECASE fl) t text) (tok :: toks).
Proof.
  apply eq_true_iff_eq. rewrite search_regex_iff, existsb_exists. split.
  - intros [i [j [Hi Hj]]]. apply ends_any_word_regex in Hj.
    destruct Hj as [t [Ht [_ H]]]. exists t. split; [exact Ht|].
    apply has_token_iff. exists i. auto.
  - intros [t [Ht H]]. apply has_token_iff in H. destruct H as [i [Hi H]].
    exists i, (i + length t). split; [exact Hi|]. apply ends_any_word_regex.
    exists t. auto.
Qed.

End Matching.

Lemma search_word_then_marker_regex (text tok marker : str) :
  search_regex ignorecase_dotall (word_then_marker_regex tok marker) text =
  marker_follows tok marker text.
Proof.
  apply eq_true_iff_eq. rewrite search_regex_iff, marker_follows_iff. split.
  - intros [i [k [Hi Hk]]]. apply ends_word_then_marker_regex in Hk; [|reflexivity|exact Hi].
    destruct Hk as [Ht [j [Hle [Hj [Hm _]]]]]. exists i, j. auto.
  - intros [i [j [Hi [Ht [Hle [Hj Hm]]]]]]. exists i, (j + length marker).
    split; [exact Hi|]. apply ends_word_then_marker_regex; [reflexivity|exact Hi|].
    split; [exact Ht|]. exists j. auto.
Qed.

(** *** What the patterns built with [re.escape] compile to *)

Section Syntax.

Lemma escape_char_lexes (c : ascii) :
  (is_special c = true /\ escape_token c = Some (TLit c)) \/
  (is_special c = false /\ Ascii.eqb c "\" = false /\ Ascii.eqb c "(" = false /\
   plain_token c = Some (TLit c)).
Proof.
  destruct c as [[] [] [] [] [] [] [] []]; vm_compute; auto.
Qed.

Lemma lex_escape_char (c : ascii) (rest : str) :
  lex (escape_char c ++ rest) = prepend [TLit c] (lex rest).
Proof.
  unfold escape_char, prepend.
  destruct (escape_char_lexes c) as [[Hs He] | [Hs [Hb [Hp Ht]]]]; rewrite Hs; simpl.
  - rewrite He. reflexivity.
  - rewrite Hb, Hp, Ht. reflexivity.
Qed.

Lemma prepend_app (ts1 ts2 : list token) (o : option (list token)) :
  prepend ts1 (prepend ts2 o) = prepend (ts1 ++ ts2) o.
Proof. destruct o; simpl; [rewrite app_assoc|]; reflexivity. Qed.

(** An escaped word is read back as its characters, whatever follows. *)
Lemma lex_escape (w rest : str) :
  lex (escape w ++ rest) = prepend (map TLit w) (lex rest).
Proof.
  induction w as [|c w IH].
  - simpl. destruct (lex rest); reflexivity.
  - unfold escape in *. cbn [flat_map map]. rewrite <- app_assoc, lex_escape_char, IH.
    rewrite prepend_app. reflexivity.
Qed.

Lemma parse_tokens_lits (w : str) (ts : list token) (f : frame) (outer : list frame) :
  parse_tokens (map TLit w ++ ts) (f, outer) =
  parse_tokens ts ({| branches := branches f; items := rev (lits w) ++ items f |}, outer).
Proof.
  revert f. induction w as [|c w IH]; intros f.
  - destruct f; reflexivity.
  - cbn [map app parse_tokens parse_step]. rewrite IH. unfold push. cbn [branches items lits map rev].
    rewrite <- app_assoc. reflexivity.
Qed.

Lemma fst_rev_lits (w : str) (l : list (regex * item_kind)) :
  rev (map fst (rev (lits w) ++ l)) = rev (map fst l) ++ map Lit w.
Proof.
  rewrite map_app, rev_app_distr, map_rev, rev_involutive. unfold lits.
  rewrite map_map. reflexivity.
Qed.

Lemma prepend_some (ts1 ts2 : list token) : prepend ts1 (Some ts2) = Some (ts1 ++ ts2).
Proof. reflexivity. Qed.

Lemma lex_word (tok : str) :
  lex (s "\b" ++ escape tok ++ s "\b") =
  Some (TAt AtBoundary :: map TLit tok ++ [TAt AtBoundary]).
Proof.
  change (lex (s "\b" ++ escape tok ++ s "\b"))
    with (prepend [TAt AtBoundary] (lex (escape tok ++ s "\b"))).
  rewrite lex_escape. change (lex (s "\b")) with (Some [TAt AtBoundary]).
  rewrite !prepend_some. reflexivity.
Qed.

Lemma lex_word_then_marker (tok marker : str) :
  lex (s "\b" ++ escape tok ++ s "\b.*?" ++ escape marker) =
  Some (TAt AtBoundary :: map TLit tok ++
        TAt AtBoundary :: TAny :: TQuant QStar :: TQuant QOpt :: map TLit marker).
Proof.
  change (lex (s "\b" ++ escape tok ++ s "\b.*?" ++ escape marker))
    with (prepend [TAt AtBoundary] (lex (escape tok ++ s "\b.*?" ++ escape marker))).
  rewrite lex_escape, <- (app_nil_r (escape marker)).
  change (lex (s "\b.*?" ++ escape marker ++ []))
    with (prepend [TAt AtBoundary] (prepend [TAny] (prepend [TQuant QStar]
            (prepend [TQuant QOpt] (lex (escape marker ++ [])))))).
  rewrite lex_escape. change (lex []) with (Some (@nil token)).
  rewrite !prepend_some, app_nil_r. reflexivity.
Qed.

Ltac parse_one :=
  cbn [parse_tokens parse_step]; unfold push, apply_quant, empty_frame;
  cbn [branches items make_lazy].

Ltac close_group :=
  unfold close_frame, branch_of, push, empty_frame;
  cbn [branches items map rev fst app].

Lemma parse_word (tok : str) :
  parse_tokens (TAt AtBoundary :: map TLit tok ++ [TAt AtBoundary]) (empty_frame, []) =
  Some (word_regex tok).
Proof.
  cbn [parse_tokens parse_step]. rewrite parse_tokens_lits.
  cbn [parse_tokens parse_step]. close_group.
  rewrite fst_rev_lits. reflexivity.
Qed.

Lemma parse_word_then_marker (tok marker : str) :
  parse_tokens (TAt AtBoundary :: map TLit tok ++
                TAt AtBoundary :: TAny :: TQuant QStar :: TQuant QOpt :: map TLit marker)
               (empty_frame, []) =
  Some (word_then_marker_regex tok marker).
Proof.
  parse_one. rewrite parse_tokens_lits. do 3 parse_one.
  rewrite <- (app_nil_r (map TLit marker)), parse_tokens_lits.
  cbn [parse_tokens]. close_group.
  rewrite fst_rev_lits. cbn [map fst rev app].
  rewrite fst_rev_lits. cbn [map fst rev app]. unfold word_then_marker_regex.
  cbn [app]. rewrite <- !app_assoc. reflexivity.
Qed.

Lemma compile_word (tok : str) :
  compile (s "\b" ++ escape tok ++ s "\b") = Ok (word_regex tok).
Proof. unfold compile, parse. rewrite lex_word, parse_word. reflexivity. Qed.

Lemma compile_word_then_marker (tok marker : str) :
  compile (s "\b" ++ escape tok ++ s "\b.*?" ++ escape marker) =
  Ok (word_then_marker_regex tok marker).
Proof.
  unfold compile, parse. rewrite lex_word_then_marker, parse_word_then_marker. reflexivity.
Qed.

Lemma lex_join_escape (w : str) (ws : list str) (rest : str) :
  lex (join (s "|") (map escape (w :: ws)) ++ rest) =
  prepend (alt_tokens w ws) (lex rest).
Proof.
  revert w. induction ws as [|w' ws IH]; intros w.
  - cbn [map join alt_tokens]. apply lex_escape.
  - change (join (s "|") (map escape (w :: w' :: ws)))
      with (escape w ++ s "|" ++ join (s "|") (map escape (w' :: ws))).
    rewrite <- !app_assoc, lex_escape.
    change (lex (s "|" ++ join (s "|") (map escape (w' :: ws)) ++ rest))
      with (prepend [TBar] (lex (join (s "|") (map escape (w' :: ws)) ++ rest))).
    rewrite IH, !prepend_app. cbn [alt_tokens app]. rewrite <- app_assoc. reflexivity.
Qed.

Lemma parse_tokens_alts (w : str) (ws : list str) (ts : list token)
      (bs : list regex) (g : frame) (outer : list frame) :
  parse_tokens (alt_tokens w ws ++ TClose :: ts)
               ({| branches := bs; items := [] |}, g :: outer) =
  parse_tokens ts
    (push (alts (rev bs ++ map (fun t => seq_of (map Lit t)) (w :: ws))) Repeatable g, outer).
Proof.
  revert w bs. induction ws as [|w' ws IH]; intros w bs.
  - cbn [alt_tokens]. rewrite parse_tokens_lits.
    cbn [parse_tokens parse_step branches items]. f_equal.
    unfold close_frame, branch_of. cbn [branches items]. rewrite fst_rev_lits.
    cbn [map rev app]. reflexivity.
  - cbn [alt_tokens]. rewrite <- app_assoc, parse_tokens_lits.
    cbn [app parse_tokens parse_step branches items]. unfold branch_of. cbn [items].
    rewrite fst_rev_lits. cbn [map rev app]. rewrite IH. cbn [rev map].
    rewrite <- app_assoc. reflexivity.
Qed.

Lemma lex_any_word (tok : str) (toks : list str) :
  lex (s "\b(?:" ++ join (s "|") (map escape (tok :: toks)) ++ s ")\b") =
  Some (TAt AtBoundary :: TOpen :: alt_tokens tok toks ++ [TClose; TAt AtBoundary]).
Proof.
  change (lex (s "\b(?:" ++ join (s "|") (map escape (tok :: toks)) ++ s ")\b"))
    with (prepend [TAt AtBoundary] (prepend [TOpen]
                  (lex (join (s "|") (map escape (tok :: toks)) ++ s ")\b")))).
  rewrite lex_join_escape. change (lex (s ")\b")) with (Some [TClose; TAt AtBoundary]).
  rewrite !prepend_some. reflexivity.
Qed.

Lemma parse_any_word (tok : str) (toks : list str) :
  parse_tokens (TAt AtBoundary :: TOpen :: alt_tokens tok toks ++ [TClose; TAt AtBoundary])
               (empty_frame, []) =
  Some (any_word_regex tok toks).
Proof.
  cbn [parse_tokens parse_step]. unfold empty_frame at 1.
  rewrite parse_tokens_alts.
  cbn [parse_tokens parse_step]. close_group. reflexivity.
Qed.

Lemma compile_any_word (tok : str) (toks : list str) :
  compile (s "\b(?:" ++ join (s "|") (map escape (tok :: toks)) ++ s ")\b") =
  Ok (any_word_regex tok toks).
Proof. unfold compile, parse. rewrite lex_any_word, parse_any_word. reflexivity. Qed.

End Syntax.

End ReFacts.

(** ** The [re] module: the matcher and the rules agree *)

Module SpanFacts.

Import Re.

Section Spans.

Variable fl : flags.
Variable text : str.











End Spans.

End SpanFacts.

(** ** The evaluators *)

Module EvaluatorFacts.

Import Re Spec Notifier PyStrFacts ReFacts.

Lemma nonempty_false_iff {A : Type} (l : list A) : nonempty l = false <-> l = [].
Proof. destruct l; simpl; split; congruence. Qed.

Lemma nonempty_true_iff {A : Type} (l : list A) : nonempty l = true <-> l <> [].
Proof. destruct l; simpl; split; congruence. Qed.

(** The list comprehension of [build_region_regex] yields the normalised
    tokens. *)
Lemma cleaned_tokens (regions : list str) :
  map (fun region => upper (strip region))
      (filter (fun region => truthy (strip region)) regions) = tokens regions.
Proof.
  unfold tokens, normalize. induction regions as [|r regions IH]; [reflexivity|].
  cbn [filter map]. rewrite truthy_upper. destruct (truthy (strip r)); cbn [map]; congruence.
Qed.

Lemma tokens_truthy (regions : list str) (tok : str) :
  In tok (tokens regions) -> tok <> [].
Proof.
  unfold tokens. intros H. apply filter_In in H. destruct H as [_ H].
  destruct tok; [discriminate | congruence].
Qed.

Lemma build_region_regex_tokens (regions : list str) :
  build_region_regex regions =
  match tokens regions with
  | [] => None
  | tok :: toks => Some (s "\b(?:" ++ join (s "|") (map escape (tok :: toks)) ++ s ")\b")
  end.
Proof.
  unfold build_region_regex. rewrite cleaned_tokens.
  destruct (tokens regions); reflexivity.
Qed.

(** The simple region gate never raises, and says whether some normalised
    token stands in the text between word boundaries, letter for letter. *)
Lemma region_filter_exact (regions : list str) (text : str) :
  region_filter (build_region_regex regions) text = Ok (filter_passes regions text).
Proof.
  unfold region_filter, filter_passes. rewrite build_region_regex_tokens.
  destruct (tokens regions) as [|tok toks]; [reflexivity|].
  unfold search. rewrite compile_any_word. cbn [bind].
  rewrite search_any_word_regex. reflexivity.
Qed.

(** The two searches of [region_is_available]. *)
Lemma search_unavailable (tok marker text : str) :
  search ignorecase_dotall (unavailable_pattern tok marker) text =
  Ok (marker_follows tok marker text).
Proof.
  unfold search, unavailable_pattern. rewrite compile_word_then_marker. cbn [bind].
  rewrite search_word_then_marker_regex. reflexivity.
Qed.

Lemma search_bare (fl : flags) (tok text : str) :
  search fl (bare_pattern tok) text = Ok (has_token (IGNORECASE fl) tok text).
Proof.
  unfold search, bare_pattern. rewrite compile_word. cbn [bind].
  rewrite search_word_regex. reflexivity.
Qed.

Lemma region_turn_ok (content marker : str) (available : list str) (region : str) :
  region_turn content marker (Ok available) region =
  Ok (available ++ available_tokens content [region] marker).
Proof.
  unfold region_turn, available_tokens, tokens, deemed_available. cbn [bind map filter].
  fold (normalize region). destruct (truthy (normalize region)); cbn [negb filter].
  - rewrite search_unavailable. cbn [bind].
    destruct (marker_follows (normalize region) marker content); cbn [negb andb].
    + rewrite app_nil_r. reflexivity.
    + rewrite search_bare. cbn [bind IGNORECASE ignorecase].
      destruct (has_token true (normalize region) content);
        [reflexivity | rewrite app_nil_r; reflexivity].
  - rewrite app_nil_r. reflexivity.
Qed.

Lemma available_tokens_cons (content marker region : str) (regions : list str) :
  available_tokens content (region :: regions) marker =
  available_tokens content [region] marker ++ available_tokens content regions marker.
Proof.
  unfold available_tokens, tokens. cbn [map filter].
  destruct (truthy (normalize region)); [|reflexivity].
  cbn [filter]. destruct (deemed_available content marker (normalize region)); reflexivity.
Qed.

Lemma region_loop (content marker : str) (regions : list str) (available : list str) :
  fold_left (region_turn content marker) regions (Ok available) =
  Ok (available ++ available_tokens content regions marker).
Proof.
  revert available. induction regions as [|region regions IH]; intros available.
  - cbn. rewrite app_nil_r. reflexivity.
  - cbn [fold_left]. rewrite region_turn_ok, IH.
    rewrite (available_tokens_cons content marker region regions), app_assoc.
    reflexivity.
Qed.

(** [region_is_available] never raises; its list is the list of the
    normalised tokens deemed available. *)
Lemma region_is_available_exact (content : str) (regions : list str) (marker : str) :
  region_is_available content regions marker =
  Ok (nonempty (available_tokens content regions marker),
      available_tokens content regions marker).
Proof.
  unfold region_is_available.
  rewrite region_loop. reflexivity.
Qed.

Lemma keyword_loop (content : str) (keywords : list str) (hits : list str) :
  fold_left (keyword_turn content) keywords hits =
  hits ++ map (app (s "keyword:")) (filter (fun k => contains k content) keywords).
Proof.
  revert hits. induction keywords as [|k keywords IH]; intros hits.
  - cbn. rewrite app_nil_r. reflexivity.
  - cbn [fold_left filter]. rewrite IH. unfold keyword_turn.
    destruct (contains k content); [|reflexivity].
    cbn [map]. rewrite <- app_assoc. reflexivity.
Qed.

Lemma search_compiles (fl : flags) (pattern text : str) :
  compiles pattern = true -> exists found, search fl pattern text = Ok found.
Proof.
  unfold compiles, search. destruct (compile pattern) as [r|e]; [|discriminate].
  intros _. eexists. reflexivity.
Qed.

Lemma regex_loop (content : str) (regexes : list str) (hits : list str) :
  forallb compiles regexes = true ->
  fold_left (regex_turn content) regexes (Ok hits) =
  Ok (hits ++ map (app (s "regex:")) (filter (regex_fires content) regexes)).
Proof.
  revert hits. induction regexes as [|r regexes IH]; intros hits Hc.
  - cbn. rewrite app_nil_r. reflexivity.
  - cbn [forallb] in Hc. apply andb_true_iff in Hc. destruct Hc as [Hr Hc].
    destruct (search_compiles no_flags r content Hr) as [found Hf].
    cbn [fold_left filter]. unfold regex_turn at 2. cbn [bind]. rewrite Hf. cbn [bind].
    rewrite (IH _ Hc). unfold regex_fires at 2. rewrite Hf.
    destruct found; [|reflexivity]. cbn [map]. rewrite <- app_assoc. reflexivity.
Qed.

Lemma regex_loop_raise (content : str) (regexes : list str) (e : exn) :
  fold_left (regex_turn content) regexes (Raise e) = Raise e.
Proof. induction regexes as [|r regexes IH]; [reflexivity | exact IH]. Qed.

Lemma matches_exact (content : str) (keywords regexes : list str) :
  forallb compiles regexes = true ->
  matches content keywords regexes =
  Ok (nonempty (fired_rules content keywords regexes),
      fired_rules content keywords regexes).
Proof.
  intros Hc. unfold matches.
  rewrite keyword_loop, (regex_loop _ _ _ Hc). reflexivity.
Qed.

(** A pattern that does not compile makes [matches] raise. *)
Lemma matches_raises (content : str) (keywords regexes : list str) :
  forallb compiles regexes = false ->
  matches content keywords regexes = Raise ReError.
Proof.
  intros Hc. unfold matches.
  generalize (fold_left (keyword_turn content) keywords []).
  induction regexes as [|r regexes IH]; intros hits; [discriminate|].
  cbn [forallb] in Hc. cbn [fold_left]. unfold regex_turn at 2. cbn [bind].
  unfold compiles in Hc, IH. unfold search at 1. destruct (compile r) as [cr|e] eqn:Hr.
  - cbn [bind]. cbn [andb] in Hc. rewrite (IH Hc). reflexivity.
  - cbn [bind]. unfold compile in Hr. destruct (parse r); [discriminate|].
    injection Hr as <-. rewrite regex_loop_raise. reflexivity.
Qed.

End EvaluatorFacts.

(** ** The claims about the evaluators *)

Module EvaluatorClaims.

Import Re Spec Notifier PyStrFacts ReFacts SpanFacts EvaluatorFacts.




(** With an empty marker, a token that stands in the text is followed by
    the marker. *)
Lemma marker_follows_empty (tok text : str) :
  marker_follows tok [] text = has_token true tok text.
Proof.
  apply eq_true_iff_eq. rewrite marker_follows_iff, has_token_iff. split.
  - intros [i [j [Hi [Ht _]]]]. exists i. auto.
  - intros [i [Hi Ht]]. exists i, (i + length tok).
    assert (Hr : reads true tok text i = true).
    { unfold token_at in Ht. rewrite !andb_true_iff in Ht. tauto. }
    assert (Hin : i + length tok <= length text) by (eapply reads_in_text; eauto).
    split; [exact Hi|]. split; [exact Ht|]. split; [lia|]. split; [exact Hin|].
    apply reads_nil.
Qed.

(** C10.  With the empty string as unavailable marker the region evaluator
    returns an empty list of available regions and the outcome false,
    whatever the text and the tokens: every token that stands in the text
    between word boundaries is also followed by the (empty) marker, so no
    region is ever deemed available. *)
Theorem empty_marker_no_region_available (text : str) (regions : list str) :
  region_is_available text regions [] = Ok (false, []) /\
  (forall tok, has_token true tok text = true -> marker_follows tok [] text = true) /\
  (forall tok, deemed_available text [] tok = false).
Proof.
  assert (Hd : forall tok, deemed_available text [] tok = false).
  { intros tok. unfold deemed_available. rewrite marker_follows_empty.
    destruct (has_token true tok text); reflexivity. }
  split; [|split].
  - rewrite region_is_available_exact. unfold available_tokens.
    assert (Hf : forall l, filter (deemed_available text []) l = []).
    { induction l as [|t l IH]; [reflexivity|]. cbn [filter]. rewrite Hd. exact IH. }
    rewrite Hf. reflexivity.
  - intros tok H. rewrite marker_follows_empty. exact H.
  - exact Hd.
Qed.

Lemma empty_marker_no_region_available_witness :
  has_token true (s "SG") (s "SG ready") = true /\
  marker_follows (s "SG") [] (s "SG ready") = true.
Proof.
  split; [reflexivity|].
  apply (proj1 (proj2 (empty_marker_no_region_available (s "SG ready") [s "SG"]))).
  reflexivity.
Defined.






(** What the combiner computes, once the match evaluator has returned. *)
Lemma evaluate_exact (args : Args) (content : str) (matched : bool) (hits : list str) :
  matches content (keyword args) (regex args) = Ok (matched, hits) ->
  evaluate args (build_region_regex (region args)) content =
  let gate := filter_passes (region args) content in
  let mode := gate && region_available args && nonempty (region args) in
  let available :=
    if mode
    then available_tokens content (region args) (region_unavailable_text args)
    else [] in
  ((if mode then [CallRegionIsAvailable content] else []) ++ [CallMatches content],
   Ok (matched && (if mode then nonempty available else gate), hits, available)).
Proof.
  intros Hm. unfold evaluate. rewrite region_filter_exact. unfold lift, call, ret.
  cbn [io_bind]. rewrite region_is_available_exact, Hm.
  destruct (filter_passes (region args) content && region_available args &&
            nonempty (region args)); reflexivity.
Qed.

Lemma evaluate_raises (args : Args) (content : str) (e : exn) :
  matches content (keyword args) (regex args) = Raise e ->
  snd (evaluate args (build_region_regex (region args)) content) = Raise e.
Proof.
  intros Hm. unfold evaluate. rewrite region_filter_exact. unfold lift, call, ret.
  cbn [io_bind]. rewrite region_is_available_exact, Hm.
  destruct (filter_passes (region args) content && region_available args &&
            nonempty (region args)); reflexivity.
Qed.


(** C3.  Once the match evaluator has returned, the decision is positive
    exactly when its outcome is true, the simple region gate passes (it does
    when no region is configured) and, in availability mode with at least one
    region configured, the region evaluator's outcome is true.  With no
    region configured the decision is the match outcome alone. *)
Theorem trigger_decision (args : Args) (content : str) (matched : bool) (hits : list str) :
  matches content (keyword args) (regex args) = Ok (matched, hits) ->
  exists tr decision available,
    evaluate args (build_region_regex (region args)) content =
      (tr, Ok (decision, hits, available)) /\
    (decision = true <->
     matched = true /\
     region_filter (build_region_regex (region args)) content = Ok true /\
     (region_available args = true -> region args <> [] ->
      exists av, region_is_available content (region args) (region_unavailable_text args)
                 = Ok (true, av))) /\
    (region args = [] ->
     region_filter (build_region_regex (region args)) content = Ok true /\
     decision = matched).
Proof.
  intros Hm. rewrite (evaluate_exact _ _ Hm). cbv zeta.
  do 3 eexists. split; [reflexivity|].
  rewrite region_filter_exact, region_is_available_exact.
  split.
  - destruct (filter_passes (region args) content) eqn:Hg; cbn [andb].
    + destruct (region_available args) eqn:Hmode; cbn [andb].
      * destruct (nonempty (region args)) eqn:Hr.
        -- apply nonempty_true_iff in Hr. rewrite andb_true_iff. split.
           ++ intros [H1 H2]. split; [exact H1|]. split; [reflexivity|].
              intros _ _. eexists. rewrite H2. reflexivity.
           ++ intros [H1 [_ H3]]. split; [exact H1|].
              destruct (H3 eq_refl Hr) as [av Hav]. congruence.
        -- apply nonempty_false_iff in Hr. rewrite andb_true_r. split.
           ++ intros H1. split; [exact H1|]. split; [reflexivity|]. intros _ H. congruence.
           ++ tauto.
      * rewrite andb_true_r. split.
        -- intros H1. split; [exact H1|]. split; [reflexivity|]. discriminate.
        -- tauto.
    + rewrite andb_false_r. split; [discriminate|]. intros [_ [H _]]. discriminate.
  - intros Hr. unfold filter_passes, tokens. rewrite Hr. cbn.
    split; [reflexivity|]. rewrite !andb_false_r, andb_true_r. reflexivity.
Qed.

Lemma trigger_decision_witness :
  exists tr decision available,
    evaluate {| url := s "https://example.org/status"; method := s "GET"; headers := None;
                keyword := [s "available"]; regex := []; region := [s "SG"];
                region_available := true; region_unavailable_text := s "sold out";
                interval := 25; timeout := 10; command := None;
                telegram_token := None; telegram_chat_id := None;
                telegram_message := s "Resource is available.";
                include_matches := false; align_hour := false; once := true |}
             (build_region_regex [s "SG"]) (s "SG sold out, DE available") =
      (tr, Ok (decision, [s "keyword:available"], available)) /\
    decision = false.
Proof.
  destruct (@trigger_decision
              {| url := s "https://example.org/status"; method := s "GET"; headers := None;
                 keyword := [s "available"]; regex := []; region := [s "SG"];
                 region_available := true; region_unavailable_text := s "sold out";
                 interval := 25; timeout := 10; command := None;
                 telegram_token := None; telegram_chat_id := None;
                 telegram_message := s "Resource is available.";
                 include_matches := false; align_hour := false; once := true |}
              (s "SG sold out, DE available") true [s "keyword:available"] eq_refl)
    as [tr [decision [available [He [Hd _]]]]].
  exists tr, decision, available. split; [exact He|].
  destruct decision; [|reflexivity].
  destruct (proj1 Hd eq_refl) as [_ [_ H]].
  destruct (H eq_refl ltac:(discriminate)) as [av Hav].
  vm_compute in Hav. discriminate.
Defined.

(** The gate is blind to letter case only through the upper-casing of the
    configured tokens: the text is searched letter for letter. *)
Example region_filter_letter_case :
  region_filter (build_region_regex [s "sg"]) (s "SG ready") = Ok true /\
  region_filter (build_region_regex [s "SG"]) (s "sg ready") = Ok false /\
  has_token true (s "SG") (s "sg ready") = true.
Proof. vm_compute. auto. Qed.




End EvaluatorClaims.

(** ** Messages *)

Module MessageFacts.

Import Spec Notifier PyStrFacts.

Lemma starts_with_longer (old y z : str) :
  length old <= length y -> starts_with old (y ++ z) = starts_with old y.
Proof.
  revert y. induction old as [|c old IH]; intros y Hlen; [reflexivity|].
  destruct y as [|d y]; [simpl in Hlen; lia|].
  cbn [app starts_with]. rewrite IH; [reflexivity | simpl in Hlen; lia].
Qed.

Lemma replace_from_skip (old new l b : str) :
  replace_from old new (length l) (l ++ b) = replace_from old new 0 b.
Proof.
  induction l as [|c l IH]; [destruct b; reflexivity|].
  cbn [length app replace_from]. exact IH.
Qed.

Lemma replace_from_absent (old new x : str) :
  contains old x = false -> replace_from old new 0 x = x.
Proof.
  induction x as [|c x IH]; [reflexivity|].
  cbn [contains replace_from]. intros H. apply orb_false_iff in H. destruct H as [H1 H2].
  rewrite H1, (IH H2). reflexivity.
Qed.

(** Without an occurrence of [old] the string is returned as it is. *)
Lemma replace_absent (old new x : str) :
  contains old x = false -> replace old new x = x.
Proof.
  destruct old as [|o old].
  - rewrite contains_nil. discriminate.
  - apply replace_from_absent.
Qed.

Lemma replace_from_here (old new b : str) :
  old <> [] ->
  replace_from old new 0 (old ++ b) = new ++ replace_from old new 0 b.
Proof.
  intros Hne. destruct old as [|o old']; [congruence|].
  cbn [app replace_from].
  change (o :: old' ++ b) with ((o :: old') ++ b). rewrite starts_with_app.
  replace (length (o :: old') - 1) with (length old') by (simpl; lia).
  rewrite replace_from_skip. reflexivity.
Qed.

Lemma replace_from_first (pre : str) (l : ascii) (new a b : str) :
  contains (pre ++ [l]) (a ++ pre) = false ->
  replace_from (pre ++ [l]) new 0 (a ++ (pre ++ [l]) ++ b) =
  a ++ new ++ replace_from (pre ++ [l]) new 0 b.
Proof.
  induction a as [|c a IH]; intros Habs.
  - cbn [app]. apply replace_from_here. destruct pre; discriminate.
  - cbn [app contains] in Habs. apply orb_false_iff in Habs. destruct Habs as [H1 H2].
    cbn [app replace_from].
    assert (Hs : starts_with (pre ++ [l]) (c :: a ++ (pre ++ [l]) ++ b) = false).
    { rewrite <- H1.
      replace (c :: a ++ (pre ++ [l]) ++ b) with ((c :: a ++ pre) ++ (l :: b))
        by (cbn [app]; rewrite <- !app_assoc; reflexivity).
      apply starts_with_longer. cbn [length]. rewrite !length_app. simpl. lia. }
    rewrite Hs, (IH H2). reflexivity.
Qed.

(** The leftmost occurrence of [old] is replaced, and the replacement goes
    on after it. *)
Lemma replace_first (old new a b : str) :
  old <> [] ->
  contains old (a ++ removelast old) = false ->
  replace old new (a ++ old ++ b) = a ++ new ++ replace old new b.
Proof.
  intros Hne Habs.
  assert (Hr : forall x, replace old new x = replace_from old new 0 x).
  { intros x. destruct old; [congruence | reflexivity]. }
  rewrite !Hr. destruct old as [|o old']; [congruence|].
  pose proof (app_removelast_last o Hne) as Hold.
  remember (removelast (o :: old')) as pre eqn:Hpre.
  remember (last (o :: old') o) as l eqn:Hl.
  rewrite Hold in *. apply replace_from_first. exact Habs.
Qed.

(** C9.  With an empty list of available regions the template is returned
    as it is.  With a list that is not empty: when the template contains the
    placeholder [{regions}], every occurrence of the placeholder, from left
    to right, is replaced by the available regions joined by a comma and a
    blank; otherwise the template is followed by a new line reading
    [Available regions: ] and the joined list.  The text handed to the
    messaging call is this message, followed by the line of match details
    when these are asked for. *)
Theorem region_message (message : str) (regions : list str) :
  (regions = [] -> format_region_message message regions = message) /\
  (regions <> [] -> contains placeholder message = true ->
   format_region_message message regions =
   replace placeholder (join (s ", ") regions) message) /\
  (regions <> [] -> contains placeholder message = false ->
   format_region_message message regions =
   message ++ [LF] ++ s "Available regions: " ++ join (s ", ") regions) /\
  (forall new x, contains placeholder x = false -> replace placeholder new x = x) /\
  (forall new a b,
      contains placeholder (a ++ s "{regions") = false ->
      replace placeholder new (a ++ placeholder ++ b) =
      a ++ new ++ replace placeholder new b) /\
  (forall args region_regex hits,
      region_available args = true \/ regions = [] ->
      telegram_message args = message ->
      build_message args region_regex hits regions =
      if include_matches args
      then format_region_message message regions ++ [LF] ++ s "Matches: " ++
           join (s ", ")
                (hits ++
                 match region_regex with
                 | Some pattern => [s "region:" ++ pattern]
                 | None => []
                 end ++
                 if nonempty regions
                 then [s "region_available:" ++ join (s ", ") regions]
                 else [])
      else format_region_message message regions) /\
  format_region_message (s "Open: {regions}. Go!") [s "SG"; s "IN"] = s "Open: SG, IN. Go!" /\
  format_region_message (s "Open") [s "SG"; s "IN"] =
    s "Open" ++ [LF] ++ s "Available regions: SG, IN".
Proof.
  split; [intros ->; reflexivity|].
  split.
  { intros Hne Hc. unfold format_region_message. destruct regions; [congruence|].
    cbn [nonempty negb]. rewrite Hc. reflexivity. }
  split.
  { intros Hne Hc. unfold format_region_message. destruct regions; [congruence|].
    cbn [nonempty negb]. rewrite Hc. reflexivity. }
  split; [intros new x; apply replace_absent|].
  split.
  { intros new a b H. apply replace_first; [discriminate | exact H]. }
  split; [|split; vm_compute; reflexivity].
  intros args region_regex hits Hmode <-. unfold build_message.
  assert (Hmsg : (if region_available args && nonempty regions
                  then format_region_message (telegram_message args) regions
                  else telegram_message args) =
                 format_region_message (telegram_message args) regions).
  { destruct Hmode as [-> | ->]; [|rewrite andb_false_r; reflexivity].
    destruct regions; reflexivity. }
  rewrite Hmsg. destruct (include_matches args); [|reflexivity].
  destruct region_regex; destruct (nonempty regions);
    rewrite ?app_nil_r, <- ?app_assoc; reflexivity.
Qed.

Lemma region_message_witness :
  format_region_message (s "Open: {regions}") [s "SG"] =
  replace placeholder (join (s ", ") [s "SG"]) (s "Open: {regions}").
Proof.
  apply (proj1 (proj2 (region_message (s "Open: {regions}") [s "SG"]))).
  - discriminate.
  - reflexivity.
Defined.

End MessageFacts.

(** ** The poll loop *)

Module LoopFacts.

Import Re Spec Notifier PyStrFacts EvaluatorFacts.

Lemma count_app (kind : event -> bool) (tr1 tr2 : list event) :
  count kind (tr1 ++ tr2) = count kind tr1 + count kind tr2.
Proof. unfold count. rewrite filter_app, length_app. reflexivity. Qed.

Lemma count_none (kind : event -> bool) (tr : list event) :
  Forall (fun e => kind e = false) tr -> count kind tr = 0.
Proof.
  unfold count. induction 1 as [|e tr He _ IH]; [reflexivity|].
  cbn [filter]. rewrite He. exact IH.
Qed.

Lemma sleep_ok (seconds : Z) :
  (0 <= seconds)%Z -> sleep seconds = ([Sleep seconds], Ok tt).
Proof.
  intros H. unfold sleep. destruct (Z.ltb_spec seconds 0); [lia | reflexivity].
Qed.

(** The evaluation only records calls of the two evaluators. *)
Lemma evaluate_trace (args : Args) (region_regex : option str) (content : str)
      (tr : list event) (r : result (bool * list str * list str)) :
  evaluate args region_regex content = (tr, r) ->
  Forall (fun e => is_evaluation e = true) tr.
Proof.
  unfold evaluate, lift, call, ret. 
  destruct (region_filter region_regex content) as [ok|e]; cbn [io_bind].
  - destruct (ok && region_available args && nonempty (region args)).
    + destruct (region_is_available content (region args) (region_unavailable_text args))
        as [[ok' av]|e]; cbn [io_bind].
      * destruct (matches content (keyword args) (regex args)) as [[m h]|e];
          cbn [io_bind app]; intros H; injection H as <- _; repeat constructor.
      * intros H; injection H as <- _; repeat constructor.
    + cbn [io_bind].
      destruct (matches content (keyword args) (regex args)) as [[m h]|e];
        cbn [io_bind app]; intros H; injection H as <- _; repeat constructor.
  - intros H; injection H as <- _. constructor.
Qed.

Lemma evaluation_counts (tr : list event) :
  Forall (fun e => is_evaluation e = true) tr ->
  count is_fetch tr = 0 /\ count is_sleep tr = 0 /\ count is_failure_line tr = 0 /\
  count is_trigger_line tr = 0 /\ count is_command tr = 0 /\ count is_message tr = 0.
Proof.
  intros H. repeat split; apply count_none; eapply Forall_impl; try exact H;
    intros [] He; try reflexivity; discriminate.
Qed.

(** A poll whose fetch fails. *)
Lemma iteration_fetch_failed (args : Args) (hdrs : dict) (rr : option str) (p : Poll) (exc : str) :
  (0 <= interval args)%Z ->
  fetched p = FetchFailed exc ->
  iteration args hdrs rr p = (failure_trace args hdrs p, Ok None).
Proof.
  intros Hi Hf. unfold iteration, failure_trace, failure_text. rewrite Hf.
  unfold emit, ret. cbn [io_bind app]. rewrite (sleep_ok Hi). reflexivity.
Qed.

(** A poll whose decision is negative. *)
Lemma iteration_negative (args : Args) (hdrs : dict) (rr : option str) (p : Poll)
      (content : str) (tr : list event) (hits available : list str) :
  (0 <= interval args)%Z ->
  fetched p = Fetched content ->
  evaluate args rr content = (tr, Ok (false, hits, available)) ->
  iteration args hdrs rr p =
  (Fetch (url args) (method args) hdrs (timeout args) :: tr ++ [Sleep (interval args)],
   Ok None).
Proof.
  intros Hi Hf He. unfold iteration. rewrite Hf, He.
  unfold emit, ret. cbn [io_bind app]. rewrite (sleep_ok Hi). rewrite app_nil_r.
  reflexivity.
Qed.

Lemma dispatch_ok (args : Args) (rr : option str) (p : Poll) (hits available : list str) :
  dispatch_returns args p ->
  dispatch args rr p hits available =
  (dispatch_trace args rr p hits available, Ok (if once args then Some 0%Z else None)).
Proof.
  intros [Hc Ht]. unfold dispatch, dispatch_trace, run_command, send_telegram_message,
                  emit, call, ret.
  cbn [io_bind]. destruct (given (command args)) eqn:Hgc.
  - rewrite (Hc eq_refl). cbn [io_bind].
    destruct (given (telegram_token args)) eqn:Hgt;
      destruct (given (telegram_chat_id args)) eqn:Hgi; cbn [andb io_bind];
        try rewrite (Ht eq_refl eq_refl); cbn [io_bind]; destruct (once args); reflexivity.
  - cbn [io_bind].
    destruct (given (telegram_token args)) eqn:Hgt;
      destruct (given (telegram_chat_id args)) eqn:Hgi; cbn [andb io_bind];
        try rewrite (Ht eq_refl eq_refl); cbn [io_bind]; destruct (once args); reflexivity.
Qed.

Lemma dispatch_counts (args : Args) (rr : option str) (p : Poll) (hits available : list str) :
  let tr := dispatch_trace args rr p hits available in
  count is_fetch tr = 0 /\ count is_sleep tr = 0 /\
  count is_trigger_line tr = 1 /\
  count is_command tr = (if given (command args) then 1 else 0) /\
  count is_message tr =
    (if given (telegram_token args) && given (telegram_chat_id args) then 1 else 0).
Proof.
  unfold dispatch_trace.
  destruct (given (command args));
    destruct (given (telegram_token args) && given (telegram_chat_id args));
    repeat split; reflexivity.
Qed.

(** A poll whose decision is positive, in single-shot mode. *)
Lemma iteration_positive_once (args : Args) (hdrs : dict) (rr : option str) (p : Poll)
      (content : str) (tr : list event) (hits available : list str) :
  once args = true ->
  dispatch_returns args p ->
  fetched p = Fetched content ->
  evaluate args rr content = (tr, Ok (true, hits, available)) ->
  iteration args hdrs rr p =
  (Fetch (url args) (method args) hdrs (timeout args) ::
   tr ++ dispatch_trace args rr p hits available,
   Ok (Some 0%Z)).
Proof.
  intros Ho Hd Hf He. unfold iteration. rewrite Hf, He.
  unfold emit, ret. cbn [io_bind app]. rewrite (dispatch_ok _ _ _ Hd), Ho.
  cbn [io_bind]. rewrite !app_nil_r. reflexivity.
Qed.

Lemma loop_cons (args : Args) (hdrs : dict) (rr : option str) (p : Poll) (ps : list Poll)
      (tr : list event) :
  iteration args hdrs rr p = (tr, Ok None) ->
  loop args hdrs rr (p :: ps) =
  (tr ++ fst (loop args hdrs rr ps), snd (loop args hdrs rr ps)).
Proof.
  intros H. cbn [loop]. rewrite H. cbn [io_bind].
  destruct (loop args hdrs rr ps) as [tr' r]. reflexivity.
Qed.

Lemma loop_stop (args : Args) (hdrs : dict) (rr : option str) (p : Poll) (ps : list Poll)
      (tr : list event) (code : Z) :
  iteration args hdrs rr p = (tr, Ok (Some code)) ->
  loop args hdrs rr (p :: ps) = (tr, Ok (Some code)).
Proof.
  intros H. cbn [loop]. rewrite H. cbn [io_bind]. unfold ret. rewrite app_nil_r.
  reflexivity.
Qed.

Lemma loop_raise (args : Args) (hdrs : dict) (rr : option str) (p : Poll) (ps : list Poll)
      (tr : list event) (e : exn) :
  iteration args hdrs rr p = (tr, Raise e) ->
  loop args hdrs rr (p :: ps) = (tr, Raise e).
Proof. intros H. cbn [loop]. rewrite H. reflexivity. Qed.


Lemma validate_ok (args : Args) :
  nonempty (keyword args) || nonempty (regex args) = true ->
  xorb (given (telegram_token args)) (given (telegram_chat_id args)) = false ->
  validate args = ([], Ok tt).
Proof.
  intros Hk Hx. unfold validate. rewrite <- negb_orb, Hk. cbn [negb io_bind ret].
  destruct (given (telegram_token args)); destruct (given (telegram_chat_id args));
    try discriminate; reflexivity.
Qed.

Lemma align_to_next_hour_trace (w : World) :
  align_to_next_hour w =
  ((if (0 <? until_next_hour w)%Z then [Sleep (until_next_hour w)] else []), Ok tt).
Proof.
  unfold align_to_next_hour. destruct (Z.ltb_spec 0 (until_next_hour w)) as [Hp|Hn].
  - rewrite Z.max_r by lia. destruct (Z.eqb_spec (until_next_hour w) 0); [lia|].
    apply sleep_ok. lia.
  - rewrite Z.max_l by lia. reflexivity.
Qed.

Lemma main_enters_loop (args : Args) (w : World) (extra : dict) :
  validate args = ([], Ok tt) ->
  load_headers (json_loads w) (headers args) = Ok extra ->
  main args w =
  (alignment_trace args w ++
   fst (loop args (dict_update [(s "User-Agent", s "hidencloud-notifier/1.0")] extra)
             (build_region_regex (region args)) (polls w)),
   snd (loop args (dict_update [(s "User-Agent", s "hidencloud-notifier/1.0")] extra)
             (build_region_regex (region args)) (polls w))).
Proof.
  intros Hv Hh. unfold main, alignment_trace. rewrite Hv, Hh. unfold lift, ret.
  cbn [io_bind app]. destruct (align_hour args); cbn [andb].
  - rewrite align_to_next_hour_trace. cbn [io_bind].
    destruct (loop _ _ _ _) as [tr r]. reflexivity.
  - cbn [io_bind app]. destruct (loop _ _ _ _) as [tr r]. reflexivity.
Qed.

Lemma count_cons (kind : event -> bool) (e : event) (tr : list event) :
  count kind (e :: tr) = (if kind e then 1 else 0) + count kind tr.
Proof. unfold count. cbn [filter]. destruct (kind e); reflexivity. Qed.

Lemma loop_single_shot (args : Args) (hdrs : dict) (rr : option str)
      (before : list Poll) (p : Poll) (after : list Poll) :
  once args = true ->
  (0 <= interval args)%Z ->
  Forall (quiet args rr) before ->
  decided args rr p true ->
  dispatch_returns args p ->
  exists tr,
    loop args hdrs rr (before ++ p :: after) = (tr, Ok (Some 0%Z)) /\
    count is_fetch tr = length before + 1 /\
    count is_sleep tr = length before /\
    count is_trigger_line tr = 1 /\
    count is_command tr = (if given (command args) then 1 else 0) /\
    count is_message tr =
      (if given (telegram_token args) && given (telegram_chat_id args) then 1 else 0).
Proof.
  intros Ho Hi Hb [content [tr [hits [av [Hf He]]]]] Hd.
  induction Hb as [|q before Hq _ IH].
  - cbn [app]. eexists. split.
    + apply loop_stop. eapply iteration_positive_once; eassumption.
    + destruct (evaluation_counts (@evaluate_trace args rr content tr _ He))
        as [E1 [E2 [_ [E3 [E4 E5]]]]].
      destruct (dispatch_counts args rr p hits av) as [D1 [D2 [D3 [D4 D5]]]].
      rewrite !count_cons, !count_app. cbn [is_fetch is_sleep is_trigger_line is_command
                                             is_message length].
      rewrite E1, E2, E3, E4, E5, D1, D2, D3, D4, D5. repeat split; reflexivity.
  - destruct IH as [tr' [Hl [C1 [C2 [C3 [C4 C5]]]]]].
    cbn [app]. destruct Hq as [[exc Hfq] | [cq [trq [hq [aq [Hfq Heq]]]]]].
    + eexists. split.
      * rewrite (@loop_cons args hdrs rr q (before ++ p :: after) _
                            (@iteration_fetch_failed args hdrs rr q exc Hi Hfq)), Hl.
        reflexivity.
      * cbn [fst]. unfold failure_trace. cbn [app].
        rewrite !count_cons, C1, C2, C3, C4, C5.
        cbn [is_fetch is_sleep is_trigger_line is_command is_message length].
        repeat split; lia.
    + eexists. split.
      * pose proof (@iteration_negative args hdrs rr q cq trq hq aq Hi Hfq Heq) as Hit.
        rewrite (@loop_cons args hdrs rr q (before ++ p :: after) _ Hit), Hl. reflexivity.
      * destruct (evaluation_counts (@evaluate_trace args rr cq trq _ Heq))
          as [E1 [E2 [_ [E3 [E4 E5]]]]].
        cbn [fst]. rewrite !count_app, !count_cons, !count_app.
        cbn [is_fetch is_sleep is_trigger_line is_command is_message length].
        rewrite E1, E2, E3, E4, E5, C1, C2, C3, C4, C5.
        unfold count.
        cbn [filter is_fetch is_sleep is_trigger_line is_command is_message length].
        repeat split; lia.
Qed.

(** C8.  In single-shot mode, with valid arguments and a sleep length
    that is not negative, after any number of polls that lead to no dispatch
    (the fetch fails or the decision is negative), the first poll whose
    decision is positive is followed by one dispatch (the trigger line, the
    command when one is configured, the message when the credentials are
    configured), given that the collaborators of the dispatch return; then the
    process leaves with status 0.  Each earlier poll has been followed by one
    sleep and no dispatch; nothing is fetched and no sleep is made after the
    trigger. *)
Theorem single_shot (args : Args) (w : World)
        (before : list Poll) (p : Poll) (after : list Poll) (extra : dict) :
  once args = true ->
  (0 <= interval args)%Z ->
  nonempty (keyword args) || nonempty (regex args) = true ->
  xorb (given (telegram_token args)) (given (telegram_chat_id args)) = false ->
  load_headers (json_loads w) (headers args) = Ok extra ->
  polls w = before ++ p :: after ->
  Forall (quiet args (build_region_regex (region args))) before ->
  decided args (build_region_regex (region args)) p true ->
  dispatch_returns args p ->
  exists tr,
    run args w = (alignment_trace args w ++ tr, Exited 0) /\
    count is_fetch tr = length before + 1 /\
    count is_sleep tr = length before /\
    count is_trigger_line tr = 1 /\
    count is_command tr = (if given (command args) then 1 else 0) /\
    count is_message tr =
      (if given (telegram_token args) && given (telegram_chat_id args) then 1 else 0).
Proof.
  intros Ho Hi Hk Hx Hh Hp Hb Hd Hr.
  destruct (@loop_single_shot args
              (dict_update [(s "User-Agent", s "hidencloud-notifier/1.0")] extra)
              (build_region_regex (region args)) before p after Ho Hi Hb Hd Hr)
    as [tr [Hl Hc]].
  exists tr. split; [|exact Hc].
  unfold run. rewrite (@main_enters_loop args w extra (@validate_ok args Hk Hx) Hh), Hp, Hl.
  reflexivity.
Qed.

Lemma single_shot_witness :
  exists tr,
    run scenario_args scenario_world = (alignment_trace scenario_args scenario_world ++ tr,
                                        Exited 0) /\
    count is_fetch tr = 2 /\
    count is_sleep tr = 1 /\
    count is_trigger_line tr = 1 /\
    count is_command tr = 0 /\
    count is_message tr = 0.
Proof.
  apply (@single_shot scenario_args scenario_world
                      [answer (s "SG sold out, DE available")]
                      (answer (s "SG available now"))
                      [answer (s "SG available now")] []).
  - reflexivity.
  - vm_compute. discriminate.
  - reflexivity.
  - reflexivity.
  - reflexivity.
  - reflexivity.
  - constructor; [|constructor]. right.
    exists (s "SG sold out, DE available"). do 3 eexists. split; vm_compute; reflexivity.
  - exists (s "SG available now"). do 3 eexists. split; vm_compute; reflexivity.
  - split; intros; reflexivity.
Defined.

(** The end-to-end scenario, run from the start: the first answer leads
    to no dispatch, the second to the trigger line, and the third poll is
    never made. *)
Example scenario_run :
  run scenario_args scenario_world =
  ([Fetch (s "https://example.org/status") (s "GET")
          [(s "User-Agent", s "hidencloud-notifier/1.0")] 10;
    CallRegionIsAvailable (s "SG sold out, DE available");
    CallMatches (s "SG sold out, DE available");
    Sleep 25;
    Fetch (s "https://example.org/status") (s "GET")
          [(s "User-Agent", s "hidencloud-notifier/1.0")] 10;
    CallRegionIsAvailable (s "SG available now");
    CallMatches (s "SG available now");
    Stdout (s "[2026-01-01T00:00:00] Match detected.")],
   Exited 0).
Proof. vm_compute. reflexivity. Qed.

Lemma loop_failures (args : Args) (hdrs : dict) (rr : option str) (ps rest : list Poll) :
  (0 <= interval args)%Z ->
  Forall (fun p => exists exc, fetched p = FetchFailed exc) ps ->
  loop args hdrs rr (ps ++ rest) =
  (flat_map (failure_trace args hdrs) ps ++ fst (loop args hdrs rr rest),
   snd (loop args hdrs rr rest)).
Proof.
  intros Hi Hf. induction Hf as [|p ps [exc Hp] _ IH].
  - cbn [app flat_map]. destruct (loop args hdrs rr rest). reflexivity.
  - cbn [app flat_map].
    rewrite (@loop_cons args hdrs rr p (ps ++ rest) _
                        (@iteration_fetch_failed args hdrs rr p exc Hi Hp)).
    rewrite IH. cbn [fst snd]. rewrite <- app_assoc. reflexivity.
Qed.

Lemma failure_counts (args : Args) (hdrs : dict) (ps : list Poll) :
  let tr := flat_map (failure_trace args hdrs) ps in
  count is_fetch tr = length ps /\
  count is_failure_line tr = length ps /\
  count is_sleep tr = length ps /\
  count is_evaluation tr = 0 /\
  count is_dispatch tr = 0 /\
  Forall (fun e => is_sleep e = true -> e = Sleep (interval args)) tr.
Proof.
  induction ps as [|p ps IH]; cbn zeta.
  - repeat split; constructor.
  - cbn zeta in IH. destruct IH as [C1 [C2 [C3 [C4 [C5 C6]]]]].
    cbn [flat_map]. unfold failure_trace at 1 3 5 7 9 11. cbn [app].
    rewrite !count_cons, C1, C2, C3, C4, C5. cbn [length].
    repeat split; try reflexivity.
    repeat constructor; try discriminate. exact C6.
Qed.

(** C6.  With a sleep length that is not negative, a poll whose fetch
    fails writes one line with the time stamp and the failure, calls neither
    evaluator and dispatches nothing, and is followed by one sleep of the
    configured length; the loop then goes on with the next poll.  After two
    failures in a row the trace is: fetch, failure line, sleep, fetch,
    failure line, sleep. *)
Theorem fetch_failure_continues (args : Args) (hdrs : dict) (rr : option str) :
  (0 <= interval args)%Z ->
  (forall p exc,
      fetched p = FetchFailed exc ->
      iteration args hdrs rr p =
      ([Fetch (url args) (method args) hdrs (timeout args);
        Stderr (s "[" ++ now p ++ s "] Request failed: " ++ exc);
        Sleep (interval args)],
       Ok None)) /\
  (forall ps rest,
      Forall (fun p => exists exc, fetched p = FetchFailed exc) ps ->
      let tr := flat_map (failure_trace args hdrs) ps in
      loop args hdrs rr (ps ++ rest) =
        (tr ++ fst (loop args hdrs rr rest), snd (loop args hdrs rr rest)) /\
      count is_fetch tr = length ps /\
      count is_failure_line tr = length ps /\
      count is_sleep tr = length ps /\
      count is_evaluation tr = 0 /\
      count is_dispatch tr = 0 /\
      Forall (fun e => is_sleep e = true -> e = Sleep (interval args)) tr) /\
  (forall p1 p2 exc1 exc2,
      fetched p1 = FetchFailed exc1 ->
      fetched p2 = FetchFailed exc2 ->
      loop args hdrs rr [p1; p2] =
      ([Fetch (url args) (method args) hdrs (timeout args);
        Stderr (s "[" ++ now p1 ++ s "] Request failed: " ++ exc1);
        Sleep (interval args);
        Fetch (url args) (method args) hdrs (timeout args);
        Stderr (s "[" ++ now p2 ++ s "] Request failed: " ++ exc2);
        Sleep (interval args)],
       Ok None)).
Proof.
  intros Hi. split; [|split].
  - intros p exc Hp. rewrite (@iteration_fetch_failed args hdrs rr p exc Hi Hp).
    unfold failure_trace, failure_text. rewrite Hp. reflexivity.
  - intros ps rest Hf. cbn zeta. split; [apply loop_failures; assumption|].
    apply failure_counts.
  - intros p1 p2 exc1 exc2 H1 H2.
    assert (Hf : Forall (fun p => exists exc, fetched p = FetchFailed exc) [p1; p2]).
    { repeat constructor; eexists; eassumption. }
    pose proof (@loop_failures args hdrs rr [p1; p2] [] Hi Hf) as Hl.
    cbn [app] in Hl. rewrite Hl. cbn [flat_map loop fst snd ret app].
    unfold failure_trace, failure_text. rewrite H1, H2. reflexivity.
Qed.

Lemma fetch_failure_continues_witness :
  loop scenario_args [] None [timed_out (s "timed out"); timed_out (s "timed out")] =
  ([Fetch (s "https://example.org/status") (s "GET") [] 10;
    Stderr (s "[2026-01-01T00:00:00] Request failed: timed out");
    Sleep 25;
    Fetch (s "https://example.org/status") (s "GET") [] 10;
    Stderr (s "[2026-01-01T00:00:00] Request failed: timed out");
    Sleep 25],
   Ok None).
Proof.
  apply (proj2 (proj2 (@fetch_failure_continues scenario_args [] None
                                                ltac:(vm_compute; discriminate)))
               (timed_out (s "timed out")) (timed_out (s "timed out"))
               (s "timed out") (s "timed out") eq_refl eq_refl).
Defined.

(** C7.  With neither a keyword nor a pattern, and with exactly one of
    the two messaging credentials given (a credential is given when it is
    present and not empty), the arguments are refused: the only thing done is
    the error of the argument parser, no poll is made, and the process leaves
    with status 2. *)
Theorem validation_refuses (args : Args) (w : World) :
  (keyword args = [] -> regex args = [] ->
   run args w =
   ([ParserError (s "Provide at least one of --keyword or --regex.")], Exited 2)) /\
  (xorb (given (telegram_token args)) (given (telegram_chat_id args)) = true ->
   exists message, run args w = ([ParserError message], Exited 2)) /\
  (2 <> 0)%Z.
Proof.
  split; [|split; [|discriminate]].
  - intros Hk Hr. unfold run, main, validate. rewrite Hk, Hr. reflexivity.
  - intros Hx. unfold run, main, validate.
    destruct (negb (nonempty (keyword args)) && negb (nonempty (regex args))).
    + eexists. reflexivity.
    + destruct (given (telegram_token args)); destruct (given (telegram_chat_id args));
        try discriminate; eexists; reflexivity.
Qed.

Lemma validation_refuses_witness :
  exists message,
    run {| url := s "https://example.org/status"; method := s "GET"; headers := None;
           keyword := [s "available"]; regex := []; region := [];
           region_available := false; region_unavailable_text := s "full and unavailable";
           interval := 25; timeout := 10; command := None;
           telegram_token := Some (s "123:abc"); telegram_chat_id := None;
           telegram_message := s "Resource is available.";
           include_matches := false; align_hour := false; once := false |}
        scenario_world = ([ParserError message], Exited 2).
Proof.
  apply (proj1 (proj2 (validation_refuses _ scenario_world))). reflexivity.
Defined.

(** C2, on the code: when the decision is positive, the credentials are
    configured and the messaging call fails in transport, the exception
    leaves the loop.  Nothing is written about the failure, no sleep follows,
    no later poll is made, and the process ends on the exception. *)
Theorem messaging_failure_aborts (args : Args) (hdrs : dict) (rr : option str)
        (p : Poll) (rest : list Poll) :
  decided args rr p true ->
  given (telegram_token args) = true ->
  given (telegram_chat_id args) = true ->
  (given (command args) = true -> command_starts p = true) ->
  telegram_ok p = false ->
  exists tr,
    loop args hdrs rr (p :: rest) = (tr, Raise URLError) /\
    count is_fetch tr = 1 /\
    count is_message tr = 1 /\
    count is_failure_line tr = 0 /\
    count is_sleep tr = 0.
Proof.
  intros [content [tr [hits [av [Hf He]]]]] Ht Hc Hcmd Hdown.
  destruct (evaluation_counts (@evaluate_trace args rr content tr _ He))
    as [E1 [E2 [E3 [_ [_ E5]]]]].
  destruct (given (command args)) eqn:Hg.
  - eexists. split.
    + apply loop_raise. unfold iteration. rewrite Hf, He.
      unfold dispatch, run_command, send_telegram_message, emit, call, ret.
      rewrite Ht, Hc, Hdown, Hg, (Hcmd eq_refl). cbn [andb io_bind app]. reflexivity.
    + rewrite !count_cons, !count_app, E1, E2, E3, E5. repeat split; reflexivity.
  - eexists. split.
    + apply loop_raise. unfold iteration. rewrite Hf, He.
      unfold dispatch, run_command, send_telegram_message, emit, call, ret.
      rewrite Ht, Hc, Hdown, Hg. cbn [andb io_bind app]. reflexivity.
    + rewrite !count_cons, !count_app, E1, E2, E3, E5. repeat split; reflexivity.
Qed.

Lemma messaging_failure_aborts_witness :
  exists tr,
    loop messaging_args [] None (polls messaging_down) = (tr, Raise URLError) /\
    count is_fetch tr = 1 /\
    count is_message tr = 1 /\
    count is_failure_line tr = 0 /\
    count is_sleep tr = 0.
Proof.
  apply (@messaging_failure_aborts messaging_args [] None
           (unreachable (s "SG available now")) [answer (s "SG available now")]).
  - exists (s "SG available now"). do 3 eexists. split; vm_compute; reflexivity.
  - reflexivity.
  - reflexivity.
  - intros H. reflexivity.
  - reflexivity.
Defined.

(** The failing input of C2 run from the start: the process ends on the
    exception right after the messaging call. *)
Example messaging_down_run :
  run messaging_args messaging_down =
  ([Fetch (s "https://example.org/status") (s "GET")
          [(s "User-Agent", s "hidencloud-notifier/1.0")] 10;
    CallMatches (s "SG available now");
    Stdout (s "[2026-01-01T00:00:00] Match detected.");
    SendTelegram (s "123:abc") (s "42") (s "Resource is available.") 10],
   Uncaught URLError).
Proof. vm_compute. reflexivity. Qed.

End LoopFacts.

(** * Further properties of the program *)

Module MoreFacts.

Import Re Notifier Spec More PyStrFacts ReFacts SpanFacts EvaluatorFacts EvaluatorClaims
       MessageFacts LoopFacts.

Local Open Scope Z_scope.

(** X1.  For a clock reading within its hour, the alignment sleeps a whole
    number of seconds from 0 to 3600; the sleep ends less than a second
    before the next hour, and on the hour only when the reading had no
    microseconds.  Read exactly on the hour it sleeps the whole hour; read in
    the last second of the hour (microseconds not zero) it does not sleep. *)
Theorem alignment_lands_before_the_hour (c : wall_clock) :
  valid_clock c ->
  let sl := seconds_to_next_hour c in
  let left := 3600 * 1000000 - (micros_past_hour c + sl * 1000000) in
  0 <= sl <= 3600 /\
  0 <= left < 1000000 /\
  (left = 0 <-> microsecond c = 0) /\
  (sl = 3600 <-> minute c = 0 /\ second c = 0 /\ microsecond c = 0) /\
  (sl = 0 <-> minute c = 59 /\ second c = 59 /\ 0 < microsecond c) /\
  forall loads ps,
    align_to_next_hour (world_at c loads ps) =
    ((if 0 <? sl then [Sleep sl] else []), Ok tt).
Proof.
  intros [Hm [Hs Hu]]. cbv zeta. unfold seconds_to_next_hour, micros_past_hour.
  set (t := (minute c * 60 + second c) * 1000000 + microsecond c).
  assert (Ht : 0 <= t <= 3600 * 1000000 - 1) by (unfold t; lia).
  rewrite Z.quot_div_nonneg by lia.
  pose proof (Z.div_mod (3600 * 1000000 - t) 1000000 ltac:(lia)) as Hdm.
  pose proof (Z.mod_pos_bound (3600 * 1000000 - t) 1000000 ltac:(lia)) as Hmod.
  set (q := (3600 * 1000000 - t) / 1000000) in *.
  set (r := (3600 * 1000000 - t) mod 1000000) in *.
  assert (Hmu : r = (1000000 - microsecond c) mod 1000000).
  { unfold r, t.
    replace (3600 * 1000000 - ((minute c * 60 + second c) * 1000000 + microsecond c))
      with ((1000000 - microsecond c) + (3599 - (minute c * 60 + second c)) * 1000000) by lia.
    apply Z.mod_add. lia. }
  split; [lia|]. split; [lia|]. split; [|split; [|split]].
  - split; intros H.
    + assert (Hr : r = 0) by lia. rewrite Hmu in Hr.
      destruct (Z.eq_dec (microsecond c) 0) as [|Hne]; [assumption|].
      rewrite Z.mod_small in Hr by lia. lia.
    + assert (Hr : r = 0) by (rewrite Hmu, H; reflexivity). lia.
  - split; intros H.
    + assert (t = 0) by lia. unfold t in *. lia.
    + destruct H as [H1 [H2 H3]]. assert (t = 0) by (unfold t; lia). lia.
  - split; intros H.
    + assert (Hr : r = 3600 * 1000000 - t) by lia.
      assert (3599 * 1000000 < t) by lia. unfold t in *. lia.
    + destruct H as [H1 [H2 H3]]. assert (3599 * 1000000 < t) by (unfold t; lia). lia.
  - intros loads ps. rewrite align_to_next_hour_trace. cbn [until_next_hour world_at].
    unfold seconds_to_next_hour, micros_past_hour. fold t.
    rewrite Z.quot_div_nonneg by lia. reflexivity.
Qed.

Local Close Scope Z_scope.

(** *** One turn of the loop, case by case *)

Lemma paced_app (i : Z) (ready : bool) (tr1 tr2 : list event) :
  paced i ready (tr1 ++ tr2) =
  paced i ready tr1 && paced i (ready_after ready tr1) tr2.
Proof.
  revert ready. induction tr1 as [|e tr1 IH]; intros ready; [reflexivity|].
  destruct e; cbn [app paced ready_after]; rewrite IH;
    rewrite ?andb_assoc; reflexivity.
Qed.

Lemma evaluate_shape (args : Args) (rr : option str) (content : str)
      (tr : list event) (r : result (bool * list str * list str)) :
  evaluate args rr content = (tr, r) ->
  exists pre,
    (pre = [] \/ pre = [CallRegionIsAvailable content]) /\
    (tr = pre ++ [CallMatches content] \/ (tr = pre /\ exists e, r = Raise e)).
Proof.
  unfold evaluate, lift, call, ret.
  destruct (region_filter rr content) as [ok|e]; cbn [io_bind].
  - destruct (ok && region_available args && nonempty (region args)).
    + destruct (region_is_available content (region args) (region_unavailable_text args))
        as [[ok' av]|e]; cbn [io_bind].
      * destruct (matches content (keyword args) (regex args)) as [[m h]|e];
          cbn [io_bind app]; intros H; injection H as <- _;
            exists [CallRegionIsAvailable content]; auto.
      * intros H; injection H as <- <-. exists [CallRegionIsAvailable content].
        split; [auto|]. right. split; [reflexivity | eexists; reflexivity].
    + cbn [io_bind].
      destruct (matches content (keyword args) (regex args)) as [[m h]|e];
        cbn [io_bind app]; intros H; injection H as <- _; exists []; auto.
  - intros H; injection H as <- <-. exists []. split; [auto|]. right.
    split; [reflexivity | eexists; reflexivity].
Qed.

Lemma search_raises_re_error (fl : flags) (pattern text : str) (e : exn) :
  search fl pattern text = Raise e -> e = ReError.
Proof.
  unfold search, compile. destruct (parse pattern); cbn [bind]; congruence.
Qed.

Lemma matches_raises_re_error (content : str) (keywords regexes : list str) (e : exn) :
  matches content keywords regexes = Raise e -> e = ReError.
Proof.
  destruct (forallb compiles regexes) eqn:Hc.
  - rewrite (matches_exact _ _ _ Hc). discriminate.
  - rewrite (matches_raises _ _ _ Hc). congruence.
Qed.

(** The evaluation raises nothing but [re.error]. *)
Lemma evaluate_raises_re_error (args : Args) (rr : option str) (content : str)
      (tr : list event) (e : exn) :
  evaluate args rr content = (tr, Raise e) -> e = ReError.
Proof.
  unfold evaluate, lift, call, ret, region_filter.
  destruct rr as [pattern|].
  - destruct (search no_flags pattern content) as [ok|e'] eqn:Hs; cbn [io_bind].
    + rewrite region_is_available_exact.
      destruct (matches content (keyword args) (regex args)) as [[m h]|e'] eqn:Hm;
        destruct (ok && region_available args && nonempty (region args));
        cbn [io_bind]; intros H; try discriminate; injection H as _ <-;
          eapply matches_raises_re_error; eassumption.
    + intros H. injection H as _ <-. eapply search_raises_re_error; eassumption.
  - cbn [io_bind]. rewrite region_is_available_exact.
    destruct (matches content (keyword args) (regex args)) as [[m h]|e'] eqn:Hm;
      destruct (true && region_available args && nonempty (region args));
      cbn [io_bind]; intros H; try discriminate; injection H as _ <-;
        eapply matches_raises_re_error; eassumption.
Qed.

Ltac use_given Hc :=
  repeat match goal with
         | Hg : given _ = _ |- _ => rewrite Hg in Hc; clear Hg
         end.

Ltac turn_solve :=
  constructor;
  [ eexists; split; [reflexivity | reflexivity]
  | cbn; rewrite ?Z.eqb_refl; reflexivity
  | intros; try discriminate; reflexivity
  | reflexivity
  | intros; try discriminate; assumption
  | cbn; lia | cbn; lia | cbn; lia | cbn; lia
  | intros Hc; unfold credentials in Hc;
    first [reflexivity | exfalso; use_given Hc; discriminate]
  | intros Hc; first [reflexivity | congruence]
  | intros code Hret; try discriminate; injection Hret as <-; auto
  | intros; try discriminate; first [reflexivity | congruence]
  | intros e0 Hraise code; try discriminate; injection Hraise as <-; discriminate
  | reflexivity ].

Lemma iteration_facts (args : Args) (hdrs : dict) (rr : option str) (p : Poll)
      (tr : list event) (r : result (option Z)) :
  iteration args hdrs rr p = (tr, r) -> turn_facts args hdrs tr r.
Proof.
  unfold iteration, emit, ret. cbn [io_bind].
  destruct (fetched p) as [content|exc].
  - destruct (evaluate args rr content) as [etr er] eqn:He.
    destruct (evaluate_shape _ _ _ He) as [pre [Hpre Hshape]].
    destruct er as [[[d h] a]|e]; cbn [io_bind].
    + destruct Hshape as [-> | [_ [e He']]]; [|discriminate].
      destruct d.
      * unfold dispatch, run_command, send_telegram_message, emit, call, ret, credentials.
        cbn [io_bind].
        destruct (given (command args)) eqn:Hgc;
          [destruct (command_starts p)|]; cbn [io_bind];
          try (destruct (given (telegram_token args)) eqn:Hgt;
               destruct (given (telegram_chat_id args)) eqn:Hgi; cbn [andb io_bind];
               try destruct (telegram_ok p); cbn [io_bind];
               destruct (once args) eqn:Ho; cbn [io_bind]);
          unfold sleep, lift, emit; try destruct (Z.ltb_spec (interval args) 0) as [Hneg|Hpos];
          cbn [io_bind app];
          intros H; injection H as <- <-;
          destruct Hpre as [-> | ->]; turn_solve.
      * unfold sleep, lift, emit, credentials. destruct (Z.ltb_spec (interval args) 0) as [Hneg|Hpos];
          cbn [io_bind app]; intros H; injection H as <- <-;
          destruct Hpre as [-> | ->]; turn_solve.
    + pose proof (evaluate_raises_re_error _ _ _ He) as ->.
      destruct Hshape as [-> | [-> _]]; cbn [app]; intros H; injection H as <- <-;
        unfold credentials; destruct Hpre as [-> | ->]; turn_solve.
  - unfold sleep, lift, emit, credentials. destruct (Z.ltb_spec (interval args) 0) as [Hneg|Hpos];
      cbn [io_bind app]; intros H; injection H as <- <-; turn_solve.
Qed.

(** *** The whole loop *)

Lemma loop_unfold (args : Args) (hdrs : dict) (rr : option str) (p : Poll) (ps : list Poll)
      (tr : list event) (r : result (option Z)) :
  iteration args hdrs rr p = (tr, r) ->
  loop args hdrs rr (p :: ps) =
  match r with
  | Ok None => (tr ++ fst (loop args hdrs rr ps), snd (loop args hdrs rr ps))
  | Ok (Some code) => (tr, Ok (Some code))
  | Raise e => (tr, Raise e)
  end.
Proof.
  intros H. destruct r as [[code|]|e].
  - apply loop_stop. exact H.
  - apply loop_cons. exact H.
  - apply loop_raise. exact H.
Qed.

Lemma count_zero_forall (kind : event -> bool) (tr : list event) :
  count kind tr = 0 -> Forall (fun e => kind e = false) tr.
Proof.
  unfold count. induction tr as [|e tr IH]; [constructor|].
  cbn [filter]. destruct (kind e) eqn:He; [discriminate|].
  intros H. constructor; auto.
Qed.

Lemma paced_sleeps (i : Z) (ready : bool) (tr : list event) :
  paced i ready tr = true -> Forall (fun e => is_sleep e = true -> e = Sleep i) tr.
Proof.
  revert ready. induction tr as [|e tr IH]; intros ready Hp; [constructor|].
  destruct e; cbn [paced] in Hp;
    try (constructor; [discriminate | exact (IH _ Hp)]).
  - apply andb_true_iff in Hp. destruct Hp as [Hp1 Hp2].
    apply andb_true_iff in Hp1. destruct Hp1 as [_ Heq]. apply Z.eqb_eq in Heq. subst.
    constructor; [reflexivity | exact (IH _ Hp2)].
  - apply andb_true_iff in Hp. destruct Hp as [_ Hp].
    constructor; [discriminate | exact (IH _ Hp)].
Qed.

Lemma ready_after_app (ready : bool) (tr1 tr2 : list event) :
  ready_after ready (tr1 ++ tr2) = ready_after (ready_after ready tr1) tr2.
Proof.
  revert ready. induction tr1 as [|e tr1 IH]; intros ready; [reflexivity|].
  destruct e; cbn [app ready_after]; apply IH.
Qed.

Lemma loop_requests (args : Args) (hdrs : dict) (rr : option str) (ps : list Poll) :
  Forall (fun e => is_fetch e = true ->
                   e = Fetch (url args) (method args) hdrs (timeout args))
         (fst (loop args hdrs rr ps)).
Proof.
  induction ps as [|p ps IH]; [constructor|].
  destruct (iteration args hdrs rr p) as [tr r] eqn:Hit.
  pose proof (@iteration_facts args hdrs rr p tr r Hit) as F.
  rewrite (@loop_unfold args hdrs rr p ps tr r Hit).
  destruct (turn_fetch F) as [body [-> Hbody]].
  assert (Hfetch : Forall (fun e => is_fetch e = true ->
                     e = Fetch (url args) (method args) hdrs (timeout args))
                   (Fetch (url args) (method args) hdrs (timeout args) :: body)).
  { constructor; [reflexivity|]. eapply Forall_impl; [|apply count_zero_forall; exact Hbody].
    cbn beta. intros e He H. congruence. }
  destruct r as [[code|]|e]; cbn [fst]; try exact Hfetch.
  apply Forall_app. split; assumption.
Qed.

(** X2.  Whatever the collaborators answer, the loop never fetches twice
    without exactly one sleep of the configured length in between, never
    sleeps twice in a row, every sleep has the configured length, and every
    request has the same URL, method, headers and timeout. *)
Theorem loop_is_paced (args : Args) (hdrs : dict) (rr : option str) (ps : list Poll) :
  let tr := fst (loop args hdrs rr ps) in
  paced (interval args) true tr = true /\
  (snd (loop args hdrs rr ps) = Ok None -> ps <> [] -> ready_after true tr = true) /\
  Forall (fun e => is_fetch e = true ->
                   e = Fetch (url args) (method args) hdrs (timeout args)) tr /\
  Forall (fun e => is_sleep e = true -> e = Sleep (interval args)) tr /\
  count is_fetch tr <= length ps /\
  count is_sleep tr <= count is_fetch tr.
Proof.
  cbv zeta. induction ps as [|p ps IH].
  - cbn. repeat split; try constructor.
  - destruct (iteration args hdrs rr p) as [tr r] eqn:Hit.
    pose proof (@iteration_facts args hdrs rr p tr r Hit) as F.
    rewrite (@loop_unfold args hdrs rr p ps tr r Hit).
    destruct (turn_fetch F) as [body [-> Hbody]].
    pose proof (turn_paced F) as Hp. pose proof (turn_sleep F) as Hs.
    assert (Hfetch : Forall (fun e => is_fetch e = true ->
                       e = Fetch (url args) (method args) hdrs (timeout args))
                     (Fetch (url args) (method args) hdrs (timeout args) :: body)).
    { constructor; [reflexivity|]. eapply Forall_impl; [|apply count_zero_forall; exact Hbody].
      cbn beta. intros e He H. congruence. }
    assert (Hsleep : Forall (fun e => is_sleep e = true -> e = Sleep (interval args))
                     (Fetch (url args) (method args) hdrs (timeout args) :: body)).
    { apply (paced_sleeps _ _ _ Hp). }
    destruct IH as [I1 [I2 [I3 [I4 [I5 I6]]]]].
    assert (Hf1 : count is_fetch (Fetch (url args) (method args) hdrs (timeout args) :: body)
                  = 1).
    { rewrite count_cons, Hbody. reflexivity. }
    destruct r as [[code|]|e]; cbn [fst snd].
    + split; [exact Hp|]. split; [discriminate|]. split; [exact Hfetch|].
      split; [exact Hsleep|]. rewrite Hf1, Hs. cbn [length]. lia.
    + rewrite paced_app, Hp, (turn_ready F eq_refl). rewrite !count_app, Hf1, Hs.
      cbn [andb length].
      split; [exact I1|]. split.
      { intros Hr _. rewrite ready_after_app, (turn_ready F eq_refl).
        destruct ps as [|q ps']; [reflexivity|]. apply I2; [exact Hr | discriminate]. }
      split; [apply Forall_app; split; assumption|].
      split; [apply Forall_app; split; assumption|]. lia.
    + split; [exact Hp|]. split; [discriminate|]. split; [exact Hfetch|].
      split; [exact Hsleep|]. rewrite Hf1, Hs. cbn [length]. lia.
Qed.



(** X3.  Whatever the collaborators answer: there are at most as many
    messages, and as many commands, as trigger lines; at most as many trigger
    lines as calls of the match evaluator; at most one such call for a fetch.
    Without both credentials no message is ever sent, without a command none
    is ever run, and in single-shot mode there is at most one trigger line. *)
Theorem dispatch_is_bounded (args : Args) (hdrs : dict) (rr : option str) (ps : list Poll) :
  let tr := fst (loop args hdrs rr ps) in
  count is_message tr <= count is_trigger_line tr /\
  count is_command tr <= count is_trigger_line tr /\
  count is_trigger_line tr <= count is_match_call tr /\
  count is_match_call tr <= count is_fetch tr /\
  (credentials args = false -> count is_message tr = 0) /\
  (given (command args) = false -> count is_command tr = 0) /\
  (once args = true -> count is_trigger_line tr <= 1).
Proof.
  cbv zeta. induction ps as [|p ps IH].
  - cbn. repeat split; lia.
  - destruct (iteration args hdrs rr p) as [tr r] eqn:Hit.
    pose proof (@iteration_facts args hdrs rr p tr r Hit) as F.
    rewrite (@loop_unfold args hdrs rr p ps tr r Hit).
    destruct (turn_fetch F) as [body [Htr Hbody]].
    assert (Hf1 : count is_fetch tr = 1).
    { rewrite Htr, count_cons, Hbody. reflexivity. }
    pose proof (turn_trigger F) as T1. pose proof (turn_match F) as T2.
    pose proof (turn_command F) as T3. pose proof (turn_message F) as T4.
    pose proof (turn_no_credentials F) as T5. pose proof (turn_no_command F) as T6.
    destruct IH as [I1 [I2 [I3 [I4 [I5 [I6 I7]]]]]].
    destruct r as [[code|]|e]; cbn [fst].
    + repeat split; try assumption; try lia.
    + rewrite !count_app. pose proof (turn_once F eq_refl) as T7.
      repeat split; try lia.
      * intros Hc. rewrite (T5 Hc), (I5 Hc). reflexivity.
      * intros Hc. rewrite (T6 Hc), (I6 Hc). reflexivity.
      * intros Ho. rewrite (T7 Ho). apply I7. exact Ho.
    + repeat split; try assumption; try lia.
Qed.

Lemma loop_result (args : Args) (hdrs : dict) (rr : option str) (ps : list Poll) :
  let tr := fst (loop args hdrs rr ps) in
  let r := snd (loop args hdrs rr ps) in
  (forall code, r = Ok (Some code) ->
                code = 0%Z /\ once args = true /\ count is_trigger_line tr = 1) /\
  (forall e, r = Raise e -> forall code, e <> SystemExit code) /\
  count is_parser_error tr = 0.
Proof.
  cbv zeta. induction ps as [|p ps IH].
  - cbn. repeat split; intros; discriminate.
  - destruct (iteration args hdrs rr p) as [tr r] eqn:Hit.
    pose proof (@iteration_facts args hdrs rr p tr r Hit) as F.
    rewrite (@loop_unfold args hdrs rr p ps tr r Hit).
    destruct IH as [I1 [I2 I3]].
    destruct r as [[code|]|e]; cbn [fst snd].
    + split; [|split].
      * intros c Hc. injection Hc as <-. apply (turn_return F). reflexivity.
      * intros e He. discriminate.
      * apply (turn_parser F).
    + split; [|split].
      * intros c Hc. destruct (I1 c Hc) as [-> [Ho Ht]].
        rewrite count_app, (turn_once F eq_refl Ho), Ht. auto.
      * exact I2.
      * rewrite count_app, (turn_parser F), I3. reflexivity.
    + split; [|split].
      * intros c Hc. discriminate.
      * intros e' He'. injection He' as <-. apply (turn_raise F). reflexivity.
      * apply (turn_parser F).
Qed.

Lemma validate_cases (args : Args) :
  (valid_args args = true /\ validate args = ([], Ok tt)) \/
  (valid_args args = false /\
   exists message, validate args = ([ParserError message], Raise (SystemExit 2))).
Proof.
  unfold valid_args, validate, parser_error, call, ret.
  destruct (nonempty (keyword args)); destruct (nonempty (regex args));
    destruct (given (telegram_token args)); destruct (given (telegram_chat_id args));
    cbn; try (left; split; reflexivity); right; split; try reflexivity;
      eexists; reflexivity.
Qed.

Lemma load_headers_cases (loads : str -> option dict) (h : option str) :
  (exists extra, load_headers loads h = Ok extra) \/ load_headers loads h = Raise ValueError.
Proof.
  unfold load_headers. destruct (given h); cbn [negb]; [|left; eexists; reflexivity].
  destruct h as [text|]; [|left; eexists; reflexivity].
  destruct (loads text); [left; eexists; reflexivity | right; reflexivity].
Qed.

Lemma alignment_counts (args : Args) (w : World) (kind : event -> bool) :
  (forall seconds, kind (Sleep seconds) = false) ->
  count kind (alignment_trace args w) = 0.
Proof.
  intros Hk. unfold alignment_trace.
  destruct (align_hour args && (0 <? until_next_hour w)%Z); [|reflexivity].
  unfold count. cbn [filter]. rewrite Hk. reflexivity.
Qed.

(** X4.  When the process leaves with a status, the status is 2 or 0.  It
    is 2 only for arguments that fail the checks, and then the error of the
    argument parser is all that happened.  It is 0 only for arguments that
    pass, in single-shot mode, with exactly one trigger line in the trace. *)
Theorem exit_status (args : Args) (w : World) (tr : list event) (code : Z) :
  run args w = (tr, Exited code) ->
  (code = 2%Z /\ valid_args args = false /\ exists message, tr = [ParserError message]) \/
  (code = 0%Z /\ valid_args args = true /\ once args = true /\
   count is_trigger_line tr = 1 /\ count is_parser_error tr = 0).
Proof.
  unfold run. destruct (validate_cases args) as [[Hv Hval] | [Hv [message Hval]]].
  - destruct (load_headers_cases (json_loads w) (headers args)) as [[extra Hh] | Hh].
    + rewrite (@main_enters_loop args w extra Hval Hh).
      pose proof (loop_result args (dict_update [(s "User-Agent", s "hidencloud-notifier/1.0")] extra)
                              (build_region_regex (region args)) (polls w)) as L.
      cbv zeta in L. destruct L as [L1 [L2 L3]].
      destruct (loop args _ (build_region_regex (region args)) (polls w)) as [ltr lr].
      cbn [fst snd] in *. destruct lr as [[c|]|e].
      * intros H. injection H as <- <-. right. destruct (L1 c eq_refl) as [-> [Ho Ht]].
        rewrite !count_app, Ht, L3.
        rewrite !alignment_counts by reflexivity. auto.
      * discriminate.
      * destruct e; try discriminate. exfalso. apply (L2 _ eq_refl code0). reflexivity.
    + unfold main. rewrite Hval, Hh. cbn. discriminate.
  - unfold main. rewrite Hval. cbn. intros H. injection H as <- <-. left. eauto.
Qed.

(** *** Continuous mode, and what stops the loop *)

Lemma iteration_notified (args : Args) (hdrs : dict) (rr : option str) (p : Poll)
      (content : str) (tr : list event) (hits available : list str) :
  dispatch_returns args p ->
  fetched p = Fetched content ->
  evaluate args rr content = (tr, Ok (true, hits, available)) ->
  iteration args hdrs rr p =
  io_bind (Fetch (url args) (method args) hdrs (timeout args) ::
           tr ++ dispatch_trace args rr p hits available,
           Ok (if once args then Some 0%Z else None))
          (fun returned =>
             match returned with
             | Some code => ret (Some code)
             | None => io_bind (sleep (interval args)) (fun _ => ret None)
             end).
Proof.
  intros Hd Hf He. unfold iteration. rewrite Hf, He.
  unfold emit, ret at 1. cbn [io_bind app]. rewrite (@dispatch_ok args rr p hits available Hd).
  cbn [io_bind]. destruct (once args); cbn [io_bind]; rewrite ?app_nil_r; try reflexivity.
  destruct (sleep (interval args)) as [str [[]|e]]; cbn [io_bind ret];
    rewrite <- ?app_assoc, ?app_nil_r; reflexivity.
Qed.

(** X5.  Without the single-shot flag nothing is remembered between polls:
    as long as the decision stays positive (and the dispatch collaborators
    return), every poll prints the trigger line, runs the command and sends
    the message again, sleeps, and the loop goes on. *)
Theorem continuous_mode_repeats (args : Args) (hdrs : dict) (rr : option str)
        (ps : list Poll) :
  once args = false ->
  (0 <= interval args)%Z ->
  Forall (notified args rr) ps ->
  exists tr,
    loop args hdrs rr ps = (tr, Ok None) /\
    count is_fetch tr = length ps /\
    count is_trigger_line tr = length ps /\
    count is_sleep tr = length ps /\
    count is_command tr = (if given (command args) then length ps else 0) /\
    count is_message tr = (if credentials args then length ps else 0).
Proof.
  intros Ho Hi Hn. induction Hn as [|p ps [[content [etr [hits [av [Hf He]]]]] Hd] _ IH].
  - exists []. destruct (given (command args)); destruct (credentials args);
      repeat split; reflexivity.
  - destruct IH as [tr' [Hl [C1 [C2 [C3 [C4 C5]]]]]].
    pose proof (@iteration_notified args hdrs rr p content etr hits av Hd Hf He) as Hit.
    rewrite Ho, (sleep_ok Hi) in Hit. cbn [io_bind ret] in Hit.
    rewrite app_nil_r in Hit.
    rewrite (@loop_unfold args hdrs rr p ps _ _ Hit), Hl. cbn [fst snd].
    eexists. split; [reflexivity|].
    destruct (evaluation_counts (@evaluate_trace args rr content etr _ He))
      as [E1 [E2 [_ [E3 [E4 E5]]]]].
    destruct (dispatch_counts args rr p hits av) as [D1 [D2 [D3 [D4 D5]]]].
    cbn [app]. rewrite !count_cons, !count_app.
    rewrite E1, E2, E3, E4, E5, D1, D2, D3, D4, D5, C1, C2, C3, C4, C5.
    unfold count, credentials.
    cbn [filter is_fetch is_sleep is_trigger_line is_command is_message length].
    destruct (given (command args));
      destruct (given (telegram_token args) && given (telegram_chat_id args));
      repeat split; lia.
Qed.

(** X6.  The command comes before the message: when the decision is
    positive and the configured command cannot be started, the exception
    leaves the loop; the message is not sent, whatever the credentials, and no
    sleep follows. *)
Theorem command_failure_aborts (args : Args) (hdrs : dict) (rr : option str)
        (p : Poll) (rest : list Poll) :
  decided args rr p true ->
  given (command args) = true ->
  command_starts p = false ->
  exists tr,
    loop args hdrs rr (p :: rest) = (tr, Raise OSError) /\
    count is_fetch tr = 1 /\
    count is_command tr = 1 /\
    count is_message tr = 0 /\
    count is_sleep tr = 0.
Proof.
  intros [content [tr [hits [av [Hf He]]]]] Hg Hdown.
  destruct (evaluation_counts (@evaluate_trace args rr content tr _ He))
    as [E1 [E2 [E3 [_ [E4 E5]]]]].
  eexists. split.
  - apply loop_raise. unfold iteration. rewrite Hf, He.
    unfold dispatch, run_command, emit, call, ret.
    rewrite Hg, Hdown. cbn [io_bind app]. reflexivity.
  - rewrite !count_cons, !count_app, E1, E2, E4, E5. repeat split; reflexivity.
Qed.

(** X7.  With a negative interval the first sleep raises: a first poll that
    leads to no dispatch ends the process after one fetch; a first poll that
    is notified ends it after the dispatch, unless the single-shot flag is
    set, in which case the process leaves with status 0 before any sleep. *)
Theorem negative_interval_stops (args : Args) (hdrs : dict) (rr : option str)
        (p : Poll) (rest : list Poll) :
  (interval args < 0)%Z ->
  (quiet args rr p ->
   exists tr, loop args hdrs rr (p :: rest) = (tr, Raise ValueError) /\
              count is_fetch tr = 1 /\ count is_sleep tr = 0 /\
              count is_trigger_line tr = 0) /\
  (notified args rr p -> once args = false ->
   exists tr, loop args hdrs rr (p :: rest) = (tr, Raise ValueError) /\
              count is_fetch tr = 1 /\ count is_sleep tr = 0 /\
              count is_trigger_line tr = 1 /\
              count is_message tr = (if credentials args then 1 else 0)) /\
  (notified args rr p -> once args = true ->
   exists tr, loop args hdrs rr (p :: rest) = (tr, Ok (Some 0%Z)) /\
              count is_trigger_line tr = 1).
Proof.
  intros Hneg.
  assert (Hs : sleep (interval args) = ([], Raise ValueError)).
  { unfold sleep. apply Z.ltb_lt in Hneg. rewrite Hneg. reflexivity. }
  split; [|split].
  - intros [[exc Hf] | [content [tr [hits [av [Hf He]]]]]].
    + eexists. split.
      * apply loop_raise. unfold iteration. rewrite Hf, Hs. unfold emit, ret.
        cbn [io_bind app]. reflexivity.
      * repeat split; reflexivity.
    + destruct (evaluation_counts (@evaluate_trace args rr content tr _ He))
        as [E1 [E2 [_ [E3 _]]]].
      eexists. split.
      * apply loop_raise. unfold iteration. rewrite Hf, He, Hs. unfold emit, ret.
        cbn [io_bind app]. reflexivity.
      * rewrite !count_cons, !count_app, E1, E2, E3. repeat split; reflexivity.
  - intros [[content [tr [hits [av [Hf He]]]]] Hd] Ho.
    pose proof (@iteration_notified args hdrs rr p content tr hits av Hd Hf He) as Hit.
    rewrite Ho, Hs in Hit. cbn [io_bind ret] in Hit. rewrite app_nil_r in Hit.
    destruct (evaluation_counts (@evaluate_trace args rr content tr _ He))
      as [E1 [E2 [_ [E3 [E4 E5]]]]].
    destruct (dispatch_counts args rr p hits av) as [D1 [D2 [D3 [D4 D5]]]].
    eexists. split; [apply loop_raise; exact Hit|].
    rewrite !count_cons, !count_app, E1, E2, E3, E5, D1, D2, D3, D5.
    unfold credentials. repeat split; reflexivity.
  - intros [[content [tr [hits [av [Hf He]]]]] Hd] Ho.
    pose proof (@iteration_notified args hdrs rr p content tr hits av Hd Hf He) as Hit.
    rewrite Ho in Hit. cbn [io_bind ret] in Hit. rewrite app_nil_r in Hit.
    destruct (evaluation_counts (@evaluate_trace args rr content tr _ He))
      as [_ [_ [_ [E3 _]]]].
    destruct (dispatch_counts args rr p hits av) as [_ [_ [D3 _]]].
    eexists. split; [apply loop_stop; exact Hit|].
    rewrite !count_cons, !count_app, E3, D3. reflexivity.
Qed.

(** *** The evaluation *)

Lemma matches_outcome (content : str) (keywords regexes : list str)
      (matched : bool) (hits : list str) :
  matches content keywords regexes = Ok (matched, hits) -> matched = nonempty hits.
Proof.
  unfold matches.
  destruct (fold_left (regex_turn content) regexes
                      (Ok (fold_left (keyword_turn content) keywords []))) as [h|e];
    cbn [bind]; intros H; [injection H as <- <-; reflexivity | discriminate].
Qed.

Lemma matches_returns_iff (content : str) (keywords regexes : list str) :
  (exists matched hits, matches content keywords regexes = Ok (matched, hits)) <->
  forallb compiles regexes = true.
Proof.
  destruct (forallb compiles regexes) eqn:Hc.
  - rewrite (matches_exact _ _ _ Hc). split; [reflexivity | intros _; eauto].
  - rewrite (matches_raises _ _ _ Hc). split; [intros [m [h H]]; discriminate | discriminate].
Qed.



(** X9.  What a decision brings with it: a positive decision has at least
    one fired rule, and in availability mode with a region configured at
    least one available region; available regions are reported only in
    availability mode, after the gate has passed and the region evaluator has
    been called once, and each is a configured token standing in the text.
    When the gate does not pass, the decision is negative, no region is
    reported and the region evaluator is not called. *)
Theorem decision_invariants (args : Args) (content : str) (tr : list event)
        (decision : bool) (hits available : list str) :
  evaluate args (build_region_regex (region args)) content =
    (tr, Ok (decision, hits, available)) ->
  (decision = true -> hits <> []) /\
  (decision = true -> region_available args = true -> region args <> [] ->
   available <> []) /\
  (available <> [] ->
   region_available args = true /\ filter_passes (region args) content = true /\
   count is_region_call tr = 1) /\
  (filter_passes (region args) content = false ->
   decision = false /\ available = [] /\ count is_region_call tr = 0) /\
  (forall tok, In tok available ->
               In tok (tokens (region args)) /\ has_token true tok content = true) /\
  count is_match_call tr = 1.
Proof.
  intros He.
  destruct (matches content (keyword args) (regex args)) as [[m h]|e] eqn:Hm.
  - pose proof (matches_outcome _ _ _ Hm) as Hmo.
    rewrite (evaluate_exact _ _ Hm) in He. cbv zeta in He.
    destruct (filter_passes (region args) content) eqn:Hg;
      destruct (region_available args) eqn:Hmode;
      destruct (nonempty (region args)) eqn:Hr; cbn [andb] in He;
        injection He as <- <- <- <-; cbn [app].
    all: split;
      [ intros Hd; apply andb_true_iff in Hd; destruct Hd as [Hd _];
        rewrite Hmo in Hd; apply nonempty_true_iff; exact Hd |].
    all: split;
      [ intros Hd Hra Hne; apply andb_true_iff in Hd; destruct Hd as [_ Hd];
        first [ apply nonempty_true_iff; exact Hd
              | discriminate
              | apply nonempty_false_iff in Hr; congruence ] |].
    all: split;
      [ intros Hne; first [ exfalso; apply Hne; reflexivity
                          | repeat split; reflexivity ] |].
    all: split;
      [ intros Hf; first [ discriminate
                         | rewrite andb_false_r; repeat split; reflexivity ] |].
    all: split; [|reflexivity].
    all: intros tok Hin; try contradiction.
    unfold available_tokens, deemed_available in Hin.
    apply filter_In in Hin. destruct Hin as [Hin Hd].
    apply andb_true_iff in Hd. tauto.
  - pose proof (evaluate_raises _ _ Hm) as Hr. rewrite He in Hr. discriminate.
Qed.

(** X10.  An empty keyword fires on every text, and so does an empty
    pattern: with one of them configured (and patterns that compile) the match
    outcome is true whatever the text is. *)
Theorem empty_rule_always_fires (content : str) (keywords regexes : list str) :
  forallb compiles regexes = true ->
  (In [] keywords -> exists hits,
      matches content keywords regexes = Ok (true, hits) /\ In (s "keyword:") hits) /\
  (In [] regexes -> exists hits,
      matches content keywords regexes = Ok (true, hits) /\ In (s "regex:") hits).
Proof.
  intros Hc. rewrite (matches_exact _ _ _ Hc).
  assert (Hne : forall rule, In rule (fired_rules content keywords regexes) ->
                             nonempty (fired_rules content keywords regexes) = true).
  { intros rule Hin. destruct (fired_rules content keywords regexes);
      [contradiction | reflexivity]. }
  split; intros Hin.
  - assert (Hf : In (s "keyword:") (fired_rules content keywords regexes)).
    { unfold fired_rules. apply in_app_iff. left.
      change (s "keyword:") with (s "keyword:" ++ []). apply in_map.
      apply filter_In. split; [exact Hin | apply contains_nil]. }
    eexists. split; [rewrite (Hne _ Hf); reflexivity | exact Hf].
  - assert (Hf : In (s "regex:") (fired_rules content keywords regexes)).
    { unfold fired_rules. apply in_app_iff. right.
      change (s "regex:") with (s "regex:" ++ []). apply in_map.
      apply filter_In. split; [exact Hin|]. unfold regex_fires.
      destruct content; reflexivity. }
    eexists. split; [rewrite (Hne _ Hf); reflexivity | exact Hf].
Qed.

(** *** Headers *)

Lemma str_eqb_refl (x : str) : str_eqb x x = true.
Proof. apply str_eqb_eq. reflexivity. Qed.

Lemma str_eqb_neq (x y : str) : x <> y -> str_eqb x y = false.
Proof.
  intros H. destruct (str_eqb x y) eqn:E; [|reflexivity].
  apply str_eqb_eq in E. contradiction.
Qed.

Lemma dict_get_set (d : dict) (k v k' : str) :
  dict_get (dict_set d k v) k' = if str_eqb k' k then Some v else dict_get d k'.
Proof.
  induction d as [|[k0 v0] d IH]; cbn [dict_set dict_get].
  - reflexivity.
  - destruct (str_eqb k k0) eqn:E; cbn [dict_get].
    + apply str_eqb_eq in E. subst k0. destruct (str_eqb k' k); reflexivity.
    + rewrite IH. destruct (str_eqb k' k0) eqn:E0; [|reflexivity].
      apply str_eqb_eq in E0. subst k0.
      destruct (str_eqb k' k) eqn:E1; [|reflexivity].
      apply str_eqb_eq in E1. subst k'. rewrite str_eqb_refl in E. discriminate.
Qed.

Lemma dict_get_app (d1 d2 : dict) (k : str) :
  dict_get (d1 ++ d2) k =
  match dict_get d1 k with
  | Some v => Some v
  | None => dict_get d2 k
  end.
Proof.
  induction d1 as [|[k0 v0] d1 IH]; cbn [app dict_get]; [reflexivity|].
  destruct (str_eqb k k0); [reflexivity | exact IH].
Qed.

Lemma dict_get_update (d extra : dict) (k : str) :
  dict_get (dict_update d extra) k =
  match last_binding extra k with
  | Some v => Some v
  | None => dict_get d k
  end.
Proof.
  unfold dict_update, last_binding. revert d.
  induction extra as [|[k0 v0] extra IH]; intros d; cbn [fold_left rev]; [reflexivity|].
  rewrite IH, dict_get_app, dict_get_set. cbn [fst snd dict_get].
  destruct (dict_get (rev extra) k); [reflexivity|].
  destruct (str_eqb k k0); reflexivity.
Qed.

Lemma dict_set_keys (d : dict) (k v : str) :
  NoDup (map fst d) ->
  NoDup (map fst (dict_set d k v)) /\
  (forall k', In k' (map fst (dict_set d k v)) <-> k' = k \/ In k' (map fst d)).
Proof.
  induction d as [|[k0 v0] d IH]; cbn [dict_set map fst]; intros Hnd.
  - split; [repeat constructor; intros [] | intros k'; cbn; intuition].
  - inversion Hnd as [|? ? Hnin Hnd']; subst.
    destruct (str_eqb k k0) eqn:E; cbn [map fst].
    + apply str_eqb_eq in E. subst k0. split; [constructor; assumption|].
      intros k'. cbn. intuition.
    + destruct (IH Hnd') as [I1 I2]. split.
      * constructor; [|exact I1]. intros Hin. apply I2 in Hin. destruct Hin as [-> | Hin].
        -- rewrite str_eqb_refl in E. discriminate.
        -- contradiction.
      * intros k'. cbn. rewrite I2. intuition.
Qed.

Lemma dict_update_keys (d extra : dict) :
  NoDup (map fst d) -> NoDup (map fst (dict_update d extra)).
Proof.
  unfold dict_update. revert d. induction extra as [|[k v] extra IH]; intros d Hnd;
    cbn [fold_left]; [exact Hnd|].
  apply IH. apply dict_set_keys. exact Hnd.
Qed.

(** X11.  With valid arguments and headers that load, every request carries
    the same headers: a dictionary without repeated keys, in which a key of
    the given headers has the value of its last pair, [User-Agent] has the
    program's default unless the given headers set it, and no other key is
    present.  When no header text is given, the default is all there is. *)
Theorem request_headers_lookup (args : Args) (w : World) (extra : dict) :
  valid_args args = true ->
  load_headers (json_loads w) (headers args) = Ok extra ->
  Forall (fun e => is_fetch e = true ->
                   e = Fetch (url args) (method args) (request_headers extra) (timeout args))
         (fst (run args w)) /\
  NoDup (map fst (request_headers extra)) /\
  (forall k, dict_get (request_headers extra) k =
             match last_binding extra k with
             | Some v => Some v
             | None => if str_eqb k (s "User-Agent")
                       then Some (s "hidencloud-notifier/1.0")
                       else None
             end) /\
  (given (headers args) = false -> extra = [] /\ request_headers extra = default_headers).
Proof.
  intros Hv Hh. split; [|split; [|split]].
  - destruct (validate_cases args) as [[_ Hval] | [Hv' _]]; [|congruence].
    unfold run. rewrite (@main_enters_loop args w extra Hval Hh).
    fold default_headers. fold (request_headers extra).
    pose proof (loop_requests args (request_headers extra)
                              (build_region_regex (region args)) (polls w)) as L.
    destruct (loop args (request_headers extra) (build_region_regex (region args)) (polls w))
      as [ltr lr]. cbn [fst snd] in *.
    assert (Hall : Forall (fun e => is_fetch e = true ->
                     e = Fetch (url args) (method args) (request_headers extra) (timeout args))
                   (alignment_trace args w ++ ltr)).
    { apply Forall_app. split; [|exact L]. unfold alignment_trace.
      destruct (align_hour args && (0 <? until_next_hour w)%Z); repeat constructor.
      discriminate. }
    destruct lr as [[c|]|e]; [exact Hall | exact Hall |].
    destruct e; exact Hall.
  - apply dict_update_keys. cbn. repeat constructor. intros [].
  - intros k. unfold request_headers. rewrite dict_get_update. reflexivity.
  - intros Hg. unfold load_headers in Hh. rewrite Hg in Hh. cbn [negb] in Hh.
    injection Hh as <-. split; reflexivity.
Qed.

(** X12.  Header text that does not load ends the process with
    [ValueError] before anything is fetched or slept; the checks on the
    arguments come first, so arguments that fail them are still refused with
    status 2. *)
Theorem bad_headers_stop_before_polling (args : Args) (w : World) (text : str) :
  headers args = Some text ->
  text <> [] ->
  json_loads w text = None ->
  (valid_args args = true -> run args w = ([], Uncaught ValueError)) /\
  (valid_args args = false ->
   exists message, run args w = ([ParserError message], Exited 2)).
Proof.
  intros Hh Hne Hl.
  assert (Hload : load_headers (json_loads w) (headers args) = Raise ValueError).
  { unfold load_headers. rewrite Hh. cbn [given]. destruct text; [congruence|].
    cbn [truthy negb]. rewrite Hl. reflexivity. }
  split; intros Hv.
  - destruct (validate_cases args) as [[_ Hval] | [Hv' _]]; [|congruence].
    unfold run, main. rewrite Hval, Hload. reflexivity.
  - destruct (validate_cases args) as [[Hv' _] | [_ [message Hval]]]; [congruence|].
    exists message. unfold run, main. rewrite Hval. reflexivity.
Qed.

(** *** Normalised regions *)















(** *** Escaped text *)






(** *** What cannot stop the loop *)


(** *** The properties at concrete inputs *)

Lemma alignment_lands_before_the_hour_witness :
  (0 <= seconds_to_next_hour half_past <= 3600)%Z.
Proof.
  apply (proj1 (@alignment_lands_before_the_hour half_past
                  ltac:(vm_compute; repeat split; discriminate))).
Defined.

Lemma loop_is_paced_witness :
  paced (interval scenario_args) true
        (fst (loop scenario_args [] (build_region_regex (region scenario_args))
                   (polls scenario_world))) = true.
Proof.
  apply (proj1 (loop_is_paced scenario_args [] (build_region_regex (region scenario_args))
                              (polls scenario_world))).
Defined.

Lemma dispatch_is_bounded_witness :
  count is_message (fst (loop scenario_args [] None (polls scenario_world))) = 0.
Proof.
  apply (proj1 (proj2 (proj2 (proj2 (proj2
           (dispatch_is_bounded scenario_args [] None (polls scenario_world))))))).
  reflexivity.
Defined.

Lemma exit_status_witness :
  valid_args scenario_args = true /\ once scenario_args = true /\
  count is_trigger_line (fst (run scenario_args scenario_world)) = 1 /\
  count is_parser_error (fst (run scenario_args scenario_world)) = 0.
Proof.
  destruct (@exit_status scenario_args scenario_world
                         (fst (run scenario_args scenario_world)) 0%Z
                         ltac:(vm_compute; reflexivity)) as [[H _] | [_ H]].
  - discriminate.
  - exact H.
Defined.

Lemma notified_answer (args : Args) (rr : option str) (content : str)
      (tr : list event) (hits av : list str) :
  evaluate args rr content = (tr, Ok (true, hits, av)) ->
  notified args rr (answer content).
Proof.
  intros He. split.
  - exists content, tr, hits, av. split; [reflexivity | exact He].
  - split; intros; reflexivity.
Qed.

Lemma continuous_mode_repeats_witness :
  exists tr,
    loop messaging_args [] None [answer (s "SG available now"); answer (s "SG available now")]
    = (tr, Ok None) /\
    count is_fetch tr = 2 /\
    count is_trigger_line tr = 2 /\
    count is_sleep tr = 2 /\
    count is_command tr = 0 /\
    count is_message tr = 2.
Proof.
  apply (@continuous_mode_repeats messaging_args [] None
           [answer (s "SG available now"); answer (s "SG available now")]).
  - reflexivity.
  - vm_compute. discriminate.
  - repeat constructor;
      try (exists (s "SG available now"); do 3 eexists; split; vm_compute; reflexivity);
      intros; reflexivity.
Defined.

Lemma command_failure_aborts_witness :
  exists tr,
    loop command_args [] None [not_started (s "SG available now")] = (tr, Raise OSError) /\
    count is_fetch tr = 1 /\
    count is_command tr = 1 /\
    count is_message tr = 0 /\
    count is_sleep tr = 0.
Proof.
  apply (@command_failure_aborts command_args [] None (not_started (s "SG available now")) []).
  - exists (s "SG available now"). do 3 eexists. split; vm_compute; reflexivity.
  - reflexivity.
  - reflexivity.
Defined.

Lemma negative_interval_stops_witness :
  exists tr,
    loop hasty_args [] None [timed_out (s "timed out"); answer (s "SG available now")]
    = (tr, Raise ValueError) /\
    count is_fetch tr = 1 /\ count is_sleep tr = 0 /\ count is_trigger_line tr = 0.
Proof.
  apply (proj1 (@negative_interval_stops hasty_args [] None (timed_out (s "timed out"))
                                         [answer (s "SG available now")]
                                         ltac:(vm_compute; reflexivity))).
  left. exists (s "timed out"). reflexivity.
Defined.


Lemma decision_invariants_witness :
  [s "keyword:available"] <> [] /\ [s "SG"] <> [].
Proof.
  destruct (@decision_invariants scenario_args (s "SG available now")
              [CallRegionIsAvailable (s "SG available now"); CallMatches (s "SG available now")]
              true [s "keyword:available"] [s "SG"] ltac:(vm_compute; reflexivity))
    as [H1 [H2 _]].
  split; [apply H1; reflexivity | apply H2; [reflexivity | reflexivity | discriminate]].
Defined.

Lemma empty_rule_always_fires_witness :
  exists hits,
    matches (s "anything") [s "x"; []] [] = Ok (true, hits) /\ In (s "keyword:") hits.
Proof.
  apply (proj1 (@empty_rule_always_fires (s "anything") [s "x"; []] [] eq_refl)).
  right. left. reflexivity.
Defined.

Lemma request_headers_lookup_witness :
  dict_get (request_headers [(s "User-Agent", s "curl/8"); (s "Accept", s "text/html")])
           (s "User-Agent") = Some (s "curl/8").
Proof.
  destruct (@request_headers_lookup header_args header_world
              [(s "User-Agent", s "curl/8"); (s "Accept", s "text/html")]
              eq_refl eq_refl) as [_ [_ [H _]]].
  rewrite H. reflexivity.
Defined.

Lemma bad_headers_stop_before_polling_witness :
  run header_args {| json_loads := fun _ => None; until_next_hour := 0;
                     polls := [answer (s "nothing yet")] |} = ([], Uncaught ValueError).
Proof.
  apply (proj1 (@bad_headers_stop_before_polling header_args
                  {| json_loads := fun _ => None; until_next_hour := 0;
                     polls := [answer (s "nothing yet")] |}
                  (s "{}") eq_refl ltac:(discriminate) eq_refl)).
  reflexivity.
Defined.





End MoreFacts.
